(** * codzilla-component: a shallow embedding of the component metadata server

    The development follows [src/codzilla-component/index.ts]:
    - JavaScript strings, regular expressions and plain objects, as far as the
      server uses them;
    - the file system the scanner walks and the [path] helpers it calls;
    - the component parser, the lazily filled cache, the tools and the
      resources that read it, for a call that runs alone and for calls
      that overlap;
    - the HTTP front end with its session map.

    Strings are sequences of code units below 256 (Latin-1); [ascii] stands
    for one code unit.  Paths are POSIX paths.  The MCP SDK is outside the
    repository: of a transport only the calls back into the server are
    modelled ([onsessioninitialized], [onclose]), and what the SDK does
    with a request is an input of the handlers.

    Of the limits of the engine, the number of arguments of one call is
    modelled, since the scanner spreads an array into a call inside a
    [try].  Otherwise values are taken to fit the engine: a file that is
    too long to be read as one string is a file that cannot be read, and
    the texts the server builds are taken to be shorter than the longest
    string of the engine. *)

From Stdlib Require Import Ascii String ZArith Lia DecimalString.
From stdpp Require Import base option list strings gmap.

(** ** Code units *)

Module Char.

Definition code (c : ascii) : nat := nat_of_ascii c.

Definition between (lo hi : nat) (c : ascii) : bool :=
  Nat.leb lo (code c) && Nat.leb (code c) hi.

Definition is_digit : ascii → bool := between 48 57.
Definition is_upper : ascii → bool := between 65 90.
Definition is_lower : ascii → bool := between 97 122.

(** [\w] *)
Definition is_word (c : ascii) : bool :=
  is_digit c || is_upper c || is_lower c || Nat.eqb (code c) 95.

(** [\s], and the characters [trim] strips: tab, line feed, vertical tab,
    form feed, carriage return, space, no-break space. *)
Definition is_space (c : ascii) : bool :=
  between 9 13 c || Nat.eqb (code c) 32 || Nat.eqb (code c) 160.

(** [.] matches everything but a line terminator. *)
Definition is_dot (c : ascii) : bool :=
  negb (Nat.eqb (code c) 10 || Nat.eqb (code c) 13).

(** [[^...]] *)
Definition none_of (l : list ascii) (c : ascii) : bool :=
  negb (existsb (Ascii.eqb c) l).

(** One code unit of [toLowerCase]: A-Z, and the Latin-1 capitals
    U+00C0..U+00DE except the multiplication sign U+00D7. *)
Definition to_lower (c : ascii) : ascii :=
  if is_upper c || (between 192 222 c && negb (Nat.eqb (code c) 215))
  then ascii_of_nat (code c + 32) else c.

(** Any code unit but [c]. *)
Definition other_than (c : ascii) (a : ascii) : bool := negb (Ascii.eqb a c).

Definition dquote : ascii := "034"%char.
Definition squote : ascii := "039"%char.
Definition newline : ascii := "010"%char.
Definition slash : ascii := "/"%char.

End Char.

(** ** JavaScript string methods *)

Module Str.

Definition dquote : string := String Char.dquote "".
Definition newline : string := String Char.newline "".

(** [strip p s] is [Some r] when [s = p ++ r]. *)
Fixpoint strip (p s : string) : option string :=
  match p, s with
  | "", _ => Some s
  | String a p', String b s' => if Ascii.eqb a b then strip p' s' else None
  | String _ _, "" => None
  end.

Definition startsWith (s p : string) : bool :=
  if strip p s is Some _ then true else false.

Fixpoint includes (s sub : string) : bool :=
  startsWith s sub ||
  match s with
  | "" => false
  | String _ s' => includes s' sub
  end.

Fixpoint endsWith (s suf : string) : bool :=
  String.eqb s suf ||
  match s with
  | "" => false
  | String _ s' => endsWith s' suf
  end.

Fixpoint toLowerCase (s : string) : string :=
  match s with
  | "" => ""
  | String c s' => String (Char.to_lower c) (toLowerCase s')
  end.

Fixpoint trimStart (s : string) : string :=
  match s with
  | String c s' => if Char.is_space c then trimStart s' else s
  | "" => ""
  end.

(** [trimEnd] keeps a character when it is not a space or when something
    is kept after it. *)
Fixpoint trimEnd (s : string) : string :=
  match s with
  | "" => ""
  | String c s' =>
      match trimEnd s' with
      | "" => if Char.is_space c then "" else String c ""
      | r => String c r
      end
  end.

Definition trim (s : string) : string := trimEnd (trimStart s).

(** [s.split(sep)] for a separator of one code unit. *)
Fixpoint split (sep : ascii) (s : string) : list string :=
  match s with
  | "" => [""]
  | String c s' =>
      if Ascii.eqb c sep then "" :: split sep s'
      else match split sep s' with
           | h :: t => String c h :: t
           | [] => [String c ""]
           end
  end.

(** [parts.join(sep)] *)
Fixpoint join (sep : string) (parts : list string) : string :=
  match parts with
  | [] => ""
  | [p] => p
  | p :: rest => p +:+ sep +:+ join sep rest
  end.

(** [take n s] is [s.slice(0, n)]. *)
Fixpoint take (n : nat) (s : string) : string :=
  match n, s with
  | S n', String c s' => String c (take n' s')
  | _, _ => ""
  end.

(** Every code unit of [s] satisfies [p]. *)
Fixpoint every (p : ascii → bool) (s : string) : bool :=
  match s with
  | "" => true
  | String c s' => p c && every p s'
  end.

(** Truthiness of a string: non-empty. *)
Definition truthy (s : string) : bool :=
  if s is "" then false else true.

End Str.

(** ** Regular expressions

    The fragment of the regular expressions of the source: literals,
    character classes, greedy [*] and [+] over a class, a greedy optional
    group, capture groups, sequencing.  Matching is by backtracking, in
    continuation-passing style, as the language defines it. *)

Module Regex.

Inductive t :=
| Lit (s : string)
| Class (p : ascii → bool)
| Star (p : ascii → bool)
| Plus (p : ascii → bool)
| Opt (r : t)
| Group (i : nat) (r : t)
| Seq (r1 r2 : t).

(** Captures: group number to the text it matched last. *)
Definition captures := list (nat * string).

Definition capture (i : nat) (c : captures) : option string :=
  snd <$> List.find (λ e, Nat.eqb (fst e) i) c.

Section Match.
Context {R : Type}.

(** Greedy [p*]: take as many as possible, give back one at a time. *)
Fixpoint star (p : ascii → bool) (s : string) (c : captures)
    (k : string → captures → option R) : option R :=
  match s with
  | String a s' =>
      if p a then
        match star p s' c k with
        | Some r => Some r
        | None => k s c
        end
      else k s c
  | "" => k s c
  end.

Fixpoint run (r : t) (s : string) (c : captures)
    (k : string → captures → option R) : option R :=
  match r with
  | Lit l => if Str.strip l s is Some s' then k s' c else None
  | Class p =>
      match s with
      | String a s' => if p a then k s' c else None
      | "" => None
      end
  | Star p => star p s c k
  | Plus p =>
      match s with
      | String a s' => if p a then star p s' c k else None
      | "" => None
      end
  | Opt r' =>
      match run r' s c k with
      | Some x => Some x
      | None => k s c
      end
  | Group i r' =>
      run r' s c (λ s' c',
        k s' ((i, Str.take (String.length s - String.length s') s) :: c'))
  | Seq r1 r2 => run r1 s c (λ s' c', run r2 s' c' k)
  end.
End Match.

(** The result of a successful match: the whole match, the groups, and the
    text after the match. *)
Record result := { whole : string; groups : captures; rest : string }.

Definition at_start (r : t) (s : string) : option result :=
  run r s [] (λ s' c,
    Some {| whole := Str.take (String.length s - String.length s') s;
            groups := c; rest := s' |}).

(** [s.match(r)] without the [g] flag: the leftmost match. *)
Fixpoint exec (r : t) (s : string) : option result :=
  match at_start r s with
  | Some m => Some m
  | None =>
      match s with
      | String _ s' => exec r s'
      | "" => None
      end
  end.

(** [s.match(r)] with the [g] flag: every match, each search starting
    where the previous match ended (one further after an empty match). *)
Fixpoint match_all_from (fuel : nat) (r : t) (s : string) : list string :=
  match fuel with
  | 0 => []
  | S fuel' =>
      match exec r s with
      | None => []
      | Some m =>
          whole m ::
          match whole m, rest m with
          | "", "" => []
          | "", String _ s' => match_all_from fuel' r s'
          | _, s' => match_all_from fuel' r s'
          end
      end
  end.

Definition match_all (r : t) (s : string) : list string :=
  match_all_from (S (String.length s)) r s.

(** The numbers of the groups of an expression. *)
Fixpoint group_ids (r : t) : list nat :=
  match r with
  | Lit _ | Class _ | Star _ | Plus _ => []
  | Opt r' => group_ids r'
  | Group i r' => i :: group_ids r'
  | Seq r1 r2 => group_ids r1 ++ group_ids r2
  end.

Fixpoint seq (l : list t) : t :=
  match l with
  | [] => Lit ""
  | [r] => r
  | r :: l' => Seq r (seq l')
  end.

End Regex.

(** ** Plain objects used as dictionaries

    An object literal [{}] holds its own properties in creation order.
    Assigning to the key [__proto__] runs the inherited setter and creates
    no own property.  Enumeration ([Object.entries], [JSON.stringify]) lists
    the keys that are array indices first, in ascending numeric order, then
    the other keys in creation order. *)

Module Obj.

Definition t (V : Type) := list (string * V).

Definition empty {V} : t V := [].

Fixpoint assign {V} (k : string) (v : V) (o : t V) : t V :=
  match o with
  | [] => [(k, v)]
  | (k', v') :: o' =>
      if String.eqb k' k then (k', v) :: o' else (k', v') :: assign k v o'
  end.

(** [o[k] = v] *)
Definition set {V} (k : string) (v : V) (o : t V) : t V :=
  if String.eqb k "__proto__" then o else assign k v o.

Fixpoint digits (s : string) (acc : N) : option N :=
  match s with
  | "" => Some acc
  | String c s' =>
      if Char.is_digit c
      then digits s' (acc * 10 + N.of_nat (Char.code c - 48))
      else None
  end.

(** The canonical decimal form of an integer below [2^32 - 1]. *)
Definition array_index (k : string) : option N :=
  match k with
  | "" => None
  | String c s' =>
      if Ascii.eqb c "0"
      then (if String.eqb s' "" then Some 0%N else None)
      else match digits k 0 with
           | Some n => if (n <? 4294967295)%N then Some n else None
           | None => None
           end
  end.

Fixpoint insert_sorted {V} (n : N) (e : string * V)
    (l : list (N * (string * V))) : list (N * (string * V)) :=
  match l with
  | [] => [(n, e)]
  | (m, e') :: l' =>
      if (n <=? m)%N then (n, e) :: l else (m, e') :: insert_sorted n e l'
  end.

Fixpoint index_entries {V} (o : t V) : list (N * (string * V)) :=
  match o with
  | [] => []
  | (k, v) :: o' =>
      match array_index k with
      | Some n => insert_sorted n (k, v) (index_entries o')
      | None => index_entries o'
      end
  end.

Definition named_entries {V} (o : t V) : list (string * V) :=
  List.filter (λ e, if array_index (fst e) is Some _ then false else true) o.

(** [Object.entries(o)] *)
Definition entries {V} (o : t V) : list (string * V) :=
  (snd <$> index_entries o) ++ named_entries o.

End Obj.

(** ** Paths

    [path.join], [path.relative], [path.basename] and [path.extname] of
    Node's POSIX flavour, on the paths the server builds: a normalised
    absolute directory joined with entry names, and a file below the
    directory it is made relative to. *)

Module Path.

Definition with_sep (dir : string) : string :=
  if Str.endsWith dir "/" then dir else dir +:+ "/".

Definition join (dir name : string) : string := with_sep dir +:+ name.

Definition relative (from to : string) : string :=
  default to (Str.strip (with_sep from) to).

Definition last_segment (p : string) : string :=
  default "" (last (Str.split Char.slash p)).

(** Index of the last dot. *)
Fixpoint last_dot (s : string) : option nat :=
  match s with
  | "" => None
  | String c s' =>
      match last_dot s' with
      | Some i => Some (S i)
      | None => if Ascii.eqb c "." then Some 0 else None
      end
  end.

Fixpoint drop (n : nat) (s : string) : string :=
  match n, s with
  | S n', String _ s' => drop n' s'
  | _, _ => s
  end.

Definition extname (p : string) : string :=
  let b := last_segment p in
  match last_dot b with
  | None | Some 0 => ""
  | Some i => if String.eqb b ".." then "" else drop i b
  end.

Definition basename (p ext : string) : string :=
  let b := last_segment p in
  if Str.truthy ext && Str.endsWith b ext && negb (String.eqb b ext)
  then Str.take (String.length b - String.length ext) b
  else b.

End Path.

(** ** File system

    What [fs.readdir] and [fs.readFile] see: a tree below the working
    directory.  [None] stands for content that cannot be read.  A scan reads
    each directory once and a load reads each file once: the tree is the
    file system as those reads see it. *)

Inductive node :=
| File (content : option string)
| Directory (entries : option (list dirent))
with dirent :=
| Dirent (name : string) (target : node).

Definition dirent_name (e : dirent) : string := let 'Dirent n _ := e in n.
Definition dirent_target (e : dirent) : node := let 'Dirent _ t := e in t.

(** The process sees a working directory and a file system, and runs on an
    engine that takes at most [max_arguments] arguments in one call: a call
    [f(...a)] that spreads a longer array throws a [RangeError]. *)
Record world := { cwd : string; root : node; max_arguments : N }.

Module Fs.

Definition child (name : string) (n : node) : option node :=
  match n with
  | Directory (Some es) =>
      dirent_target <$> List.find (λ e, String.eqb (dirent_name e) name) es
  | _ => None
  end.

Fixpoint walk (segments : list string) (n : node) : option node :=
  match segments with
  | [] => Some n
  | s :: rest => child s n ≫= walk rest
  end.

Definition resolve (w : world) (p : string) : option node :=
  Str.strip (Path.with_sep (cwd w)) p ≫= λ rel,
  walk (Str.split Char.slash rel) (root w).

(** [fs.readdir(dir, { withFileTypes: true })]; [None] when it rejects. *)
Definition readdir (w : world) (dir : string) : option (list dirent) :=
  match resolve w dir with
  | Some (Directory (Some es)) => Some es
  | _ => None
  end.

(** [fs.readFile(p, 'utf-8')]; [None] when it rejects. *)
Definition readFile (w : world) (p : string) : option string :=
  match resolve w p with
  | Some (File (Some content)) => Some content
  | _ => None
  end.

Definition isDirectory (e : dirent) : bool :=
  if dirent_target e is Directory _ then true else false.

End Fs.

(** ** Completions: a call returns or throws *)

Inductive js_error := Error (message : string).

Inductive completion (A : Type) :=
| Return (a : A)
| Throw (e : js_error).
Arguments Return {A} a.
Arguments Throw {A} e.

Definition bind {A B} (m : completion A) (f : A → completion B) : completion B :=
  match m with
  | Return a => f a
  | Throw e => Throw e
  end.

(** [try { m } catch { h }] *)
Definition try_catch {A} (m : completion A) (h : js_error → completion A)
    : completion A :=
  match m with
  | Return a => Return a
  | Throw e => h e
  end.

(** [Promise.all(l.map(f))]: the results in the order of [l]; rejects when
    one rejects. *)
Fixpoint promise_all {A B} (f : A → completion B) (l : list A)
    : completion (list B) :=
  match l with
  | [] => Return []
  | a :: l' =>
      bind (f a) (λ b, bind (promise_all f l') (λ bs, Return (b :: bs)))
  end.

(** ** Component records *)

Record PropConfig := { type : string; optional : bool }.

Record ComponentDefinition := {
  name : string;
  path : string;
  props : Obj.t PropConfig;
  usage : string;
  dependencies : option (list string);
}.

(** The state of the server object the handlers share. *)
Record ComponentMCPServer := { componentsCache : list ComponentDefinition }.

Definition new_server : ComponentMCPServer := {| componentsCache := [] |}.

(** ** The scanner and the parser *)

Section Parser.

(** [/interface\s+(\w+Props)\s*{([^}]+)}/] *)
Definition props_pattern : Regex.t :=
  Regex.seq
    [ Regex.Lit "interface"; Regex.Plus Char.is_space;
      Regex.Group 1 (Regex.Seq (Regex.Plus Char.is_word) (Regex.Lit "Props"));
      Regex.Star Char.is_space; Regex.Lit "{";
      Regex.Group 2 (Regex.Plus (Char.none_of ["}"%char]));
      Regex.Lit "}" ].

(** [/(\w+)(\?)?:\s*([^;]+)/] *)
Definition prop_line_pattern : Regex.t :=
  Regex.seq
    [ Regex.Group 1 (Regex.Plus Char.is_word);
      Regex.Opt (Regex.Group 2 (Regex.Lit "?"));
      Regex.Lit ":"; Regex.Star Char.is_space;
      Regex.Group 3 (Regex.Plus (Char.none_of [";"%char])) ].

Definition quote_class (c : ascii) : bool :=
  Ascii.eqb c Char.squote || Ascii.eqb c Char.dquote.

(** [/from\s+Q([^Q]+)Q/], where the class [Q] holds the single and the
    double quote. *)
Definition from_pattern : Regex.t :=
  Regex.seq
    [ Regex.Lit "from"; Regex.Plus Char.is_space; Regex.Class quote_class;
      Regex.Group 1 (Regex.Plus (Char.none_of [Char.squote; Char.dquote]));
      Regex.Class quote_class ].

(** [/import\s+.*\s+from\s+Q([^Q]+)Q/g] *)
Definition import_pattern : Regex.t :=
  Regex.seq
    [ Regex.Lit "import"; Regex.Plus Char.is_space; Regex.Star Char.is_dot;
      Regex.Plus Char.is_space; from_pattern ].

Definition getExampleValue (type : string) : string :=
  if Str.includes type "string" then Str.dquote +:+ "example" +:+ Str.dquote
  else if Str.includes type "number" then "42"
  else if Str.includes type "boolean" then "true"
  else if Str.includes type "function" || Str.includes type "=>" then "() => {}"
  else if Str.includes type "[]" then "[]"
  else "{}".

Definition usage_fragment (e : string * PropConfig) : string :=
  fst e +:+ "={" +:+ getExampleValue (type (snd e)) +:+ "}".

Definition generateUsageExample (componentName : string)
    (props : Obj.t PropConfig) : string :=
  let requiredProps :=
    Str.join " "
      (usage_fragment <$>
         List.filter (λ e, negb (optional (snd e))) (Obj.entries props)) in
  "<" +:+ componentName
      +:+ (if Str.truthy requiredProps then " " +:+ requiredProps else "")
      +:+ " />".

Definition extractDependencies (content : string) : list string :=
  let importMatches := Regex.match_all import_pattern content in
  List.filter Str.truthy
    (omap (λ m, Regex.exec from_pattern m ≫= λ fromMatch,
                Regex.capture 1 (Regex.groups fromMatch))
          importMatches).

(** The reducer of [propLines.reduce]. *)
Definition add_prop (acc : Obj.t PropConfig) (line : string) : Obj.t PropConfig :=
  match Regex.exec prop_line_pattern line with
  | Some m =>
      let g := Regex.groups m in
      Obj.set (default "" (Regex.capture 1 g))
        {| type := Str.trim (default "" (Regex.capture 3 g));
           optional := if Regex.capture 2 g is Some q then Str.truthy q else false |}
        acc
  | None => acc
  end.

Definition parse_props (content : string) : Obj.t PropConfig :=
  match Regex.exec props_pattern content with
  | Some propsMatch =>
      let propsContent := default "" (Regex.capture 2 (Regex.groups propsMatch)) in
      let propLines :=
        Str.trim <$>
          List.filter
            (λ line, Str.truthy (Str.trim line)
                     && negb (Str.startsWith (Str.trim line) "//"))
            (Str.split Char.newline propsContent) in
      fold_left add_prop propLines Obj.empty
  | None => Obj.empty
  end.

Variable w : world.

(** [files.push(...found)]: throws when [found] has more elements than the
    engine takes as arguments. *)
Definition push_all (files found : list string) : completion (list string) :=
  if (N.of_nat (length found) <=? max_arguments w)%N
  then Return (files ++ found)
  else Throw (Error "Maximum call stack size exceeded").

(** The [for] loop of [scanForComponents] from the entries still to visit,
    with the [files] array as it is; [scan] is the recursive call.  The
    loop stands inside the [try]: when a [push] throws, the [catch] leaves
    the loop and the array is returned as it is then. *)
Definition scan_loop (scan : string → node → list string) (dir : string)
    : list dirent → list string → list string :=
  fix loop (entries : list dirent) (files : list string) : list string :=
    match entries with
    | [] => files
    | (Dirent entry_name target as entry) :: entries' =>
        let fullPath := Path.join dir entry_name in
        if Fs.isDirectory entry then
          match push_all files (scan fullPath target) with
          | Return files' => loop entries' files'
          | Throw _ => files
          end
        else if Str.endsWith entry_name ".tsx" || Str.endsWith entry_name ".ts"
        then loop entries' (files ++ [fullPath])
        else loop entries' files
    end.

(** The [files] array when [scanForComponents(dir)] returns, [n] being
    what [dir] names.  A [readdir] that rejects is caught and leaves the
    array empty. *)
Fixpoint scan_node (dir : string) (n : node) {struct n} : list string :=
  match n with
  | Directory (Some entries) => scan_loop scan_node dir entries []
  | _ => []
  end.

Definition scanForComponents (dir : string) : completion (list string) :=
  Return (if Fs.resolve w dir is Some n then scan_node dir n else []).

Definition parseComponent (filePath : string) : completion ComponentDefinition :=
  try_catch
    (match Fs.readFile w filePath with
     | None => Throw (Error "readFile")
     | Some content =>
         let relativePath := Path.relative (cwd w) filePath in
         let componentName := Path.basename filePath (Path.extname filePath) in
         let props := parse_props content in
         let usage := generateUsageExample componentName props in
         Return {| name := componentName;
                   path := relativePath;
                   props := props;
                   usage := usage;
                   dependencies := Some (extractDependencies content) |}
     end)
    (λ _,
       Return {| name := Path.basename filePath (Path.extname filePath);
                 path := Path.relative (cwd w) filePath;
                 props := Obj.empty;
                 usage := "<" +:+ Path.basename filePath (Path.extname filePath)
                              +:+ " />";
                 dependencies := None |}).

Definition getDefaultComponents : list ComponentDefinition :=
  [ {| name := "Preview";
       path := "src/components/Preview.tsx";
       props := [("code", {| type := "string"; optional := false |})];
       usage := "<Preview code={generatedCode} />";
       dependencies := Some ["react"] |};
    {| name := "FileExplorer";
       path := "src/components/FileExplorer.tsx";
       props :=
         [("files", {| type := "GeneratedFile[]"; optional := false |});
          ("onOpenFile",
           {| type := "(file: GeneratedFile) => void"; optional := false |});
          ("onDeleteFile",
           {| type := "(path: string) => void"; optional := false |})];
       usage := "<FileExplorer files={files} onOpenFile={handleOpenFile} onDeleteFile={handleDeleteFile} />";
       dependencies := Some ["react"] |} ].

Definition componentsDir : string :=
  Path.join (Path.join (cwd w) "src") "components".

(** [loadComponents] stores its result in [componentsCache]. *)
Definition loadComponents (this : ComponentMCPServer) : ComponentMCPServer :=
  match
    bind (scanForComponents componentsDir) (λ componentFiles,
      promise_all parseComponent componentFiles)
  with
  | Return parsed => {| componentsCache := parsed |}
  | Throw error => {| componentsCache := getDefaultComponents |}
  end.

End Parser.

(** ** JSON values and [JSON.stringify] *)

#[local] Set Warnings "-register-all".

Inductive json :=
| JNull
| JBool (b : bool)
| JNumber (z : Z)
| JString (s : string)
| JArray (items : list json)
| JObject (members : list (string * json)).

Module JSON.

Definition hex_digit (n : nat) : ascii :=
  ascii_of_nat (if Nat.ltb n 10 then 48 + n else 87 + n).

Definition escape (c : ascii) : string :=
  let n := Char.code c in
  if Nat.eqb n 8 then "\b"
  else if Nat.eqb n 9 then "\t"
  else if Nat.eqb n 10 then "\n"
  else if Nat.eqb n 12 then "\f"
  else if Nat.eqb n 13 then "\r"
  else if Nat.eqb n 34 then String "\" Str.dquote
  else if Nat.eqb n 92 then "\\"
  else if Nat.ltb n 32
       then "\u00" +:+ String (hex_digit (n / 16)) (String (hex_digit (n mod 16)) "")
       else String c "".

Fixpoint escape_all (s : string) : string :=
  match s with
  | "" => ""
  | String c s' => escape c +:+ escape_all s'
  end.

Definition quote (s : string) : string :=
  Str.dquote +:+ escape_all s +:+ Str.dquote.

Definition number (z : Z) : string := NilZero.string_of_int (Z.to_int z).

Definition wrap (opening closing gap indent : string) (partial : list string)
    : string :=
  match partial with
  | [] => opening +:+ closing
  | _ =>
      if Str.truthy gap then
        let inner := indent +:+ gap in
        opening +:+ Str.newline +:+ inner
          +:+ Str.join ("," +:+ Str.newline +:+ inner) partial
          +:+ Str.newline +:+ indent +:+ closing
      else opening +:+ Str.join "," partial +:+ closing
  end.

Fixpoint serialize (gap indent : string) (v : json) {struct v} : string :=
  match v with
  | JNull => "null"
  | JBool b => if b then "true" else "false"
  | JNumber z => number z
  | JString s => quote s
  | JArray items =>
      wrap "[" "]" gap indent
        ((fix each (l : list json) : list string :=
            match l with
            | [] => []
            | x :: l' => serialize gap (indent +:+ gap) x :: each l'
            end) items)
  | JObject members =>
      wrap "{" "}" gap indent
        ((fix each (l : list (string * json)) : list string :=
            match l with
            | [] => []
            | (k, x) :: l' =>
                (quote k +:+ ":" +:+ (if Str.truthy gap then " " else "")
                   +:+ serialize gap (indent +:+ gap) x) :: each l'
            end) members)
  end.

(** [JSON.stringify(v)] and [JSON.stringify(v, null, 2)] *)
Definition stringify (v : json) : string := serialize "" "" v.
Definition stringify2 (v : json) : string := serialize "  " "" v.

End JSON.

Definition prop_json (cfg : PropConfig) : json :=
  JObject [("type", JString (type cfg)); ("optional", JBool (optional cfg))].

(** The members [JSON.stringify] sees in a component record; an absent
    [dependencies] is left out. *)
Definition component_json (c : ComponentDefinition) : json :=
  JObject
    ([("name", JString (name c));
      ("path", JString (path c));
      ("props", JObject (prod_map id prop_json <$> Obj.entries (props c)));
      ("usage", JString (usage c))]
     ++ match dependencies c with
        | Some deps => [("dependencies", JArray (JString <$> deps))]
        | None => []
        end).

(** ** Tools and resources *)

Record TextContent := { content_type : string; text : string; _meta : json }.
Record CallToolResult := { content : list TextContent }.
Record ResourceContents := { uri : string; resource_text : string }.
Record ReadResourceResult := { contents : list ResourceContents }.

Definition text_result (s : string) : CallToolResult :=
  {| content := [ {| content_type := "text"; text := s; _meta := JObject [] |} ] |}.

Definition resource_result (href s : string) : ReadResourceResult :=
  {| contents := [ {| uri := href; resource_text := s |} ] |}.

Definition usage_guidelines : json :=
  JObject
    [("import_pattern",
      JString "import ComponentName from '@/components/path/ComponentName';");
     ("styling", JString "Use Tailwind CSS classes for styling");
     ("conventions",
      JArray [JString "Use TypeScript interfaces for props";
              JString "Export default for main component";
              JString "Use functional components with hooks";
              JString "Follow Next.js 13+ App Router conventions"])].

Definition components_payload (filtered : list ComponentDefinition) : json :=
  JObject [("components", JArray (component_json <$> filtered));
           ("usage_guidelines", usage_guidelines)].

Definition not_found_message (name : string) : string :=
  "Component " +:+ name +:+ " not found".

Section Handlers.

Variable w : world.

(** [if (this.componentsCache.length === 0) await this.loadComponents()],
    when nothing else runs between the test and the assignment of the
    load: the guard of a call that runs alone.  Calls that overlap are
    taken up below ([tick]). *)
Definition ensure_loaded (this : ComponentMCPServer) : ComponentMCPServer :=
  if Nat.eqb (length (componentsCache this)) 0
  then loadComponents w this else this.

Definition category_matches (category : string) (comp : ComponentDefinition)
    : bool :=
  Str.includes (path comp) ("/" +:+ category +:+ "/")
  || Str.includes (Str.toLowerCase (name comp)) category.

(** [getComponents] after its guard, on the cache as it is then. *)
Definition getComponents_body (cache : list ComponentDefinition)
    (category : string) : completion CallToolResult :=
  let filtered :=
    if negb (String.eqb category "all")
    then List.filter (category_matches category) cache
    else cache in
  Return (text_result (JSON.stringify2 (components_payload filtered))).

Definition getComponents (this : ComponentMCPServer) (category : string)
    : ComponentMCPServer * completion CallToolResult :=
  let this := ensure_loaded this in
  (this, getComponents_body (componentsCache this) category).

Definition name_matches (name0 : string) (comp : ComponentDefinition) : bool :=
  String.eqb (Str.toLowerCase (name comp)) (Str.toLowerCase name0).

(** [getComponentByName] after its guard. *)
Definition getComponentByName_body (cache : list ComponentDefinition)
    (name0 : string) : completion CallToolResult :=
  match List.find (name_matches name0) cache with
  | None => Throw (Error (not_found_message name0))
  | Some component =>
      Return (text_result (JSON.stringify2 (component_json component)))
  end.

Definition getComponentByName (this : ComponentMCPServer) (name0 : string)
    : ComponentMCPServer * completion CallToolResult :=
  let this := ensure_loaded this in
  (this, getComponentByName_body (componentsCache this) name0).

(** The resource [components://all], after the guard of its handler. *)
Definition read_components_body (cache : list ComponentDefinition)
    (href : string) : completion ReadResourceResult :=
  Return (resource_result href
            (JSON.stringify2 (JArray (component_json <$> cache)))).

Definition read_components (this : ComponentMCPServer) (href : string)
    : ComponentMCPServer * completion ReadResourceResult :=
  let this := ensure_loaded this in
  (this, read_components_body (componentsCache this) href).

(** The resource template [component://{name}], after the guard of its
    handler. *)
Definition read_component_body (cache : list ComponentDefinition)
    (href name0 : string) : completion ReadResourceResult :=
  let comp := List.find (name_matches name0) cache in
  Return (resource_result href
            match comp with
            | Some comp => JSON.stringify2 (component_json comp)
            | None =>
                JSON.stringify (JObject [("error", JString (not_found_message name0))])
            end).

Definition read_component (this : ComponentMCPServer) (href name0 : string)
    : ComponentMCPServer * completion ReadResourceResult :=
  let this := ensure_loaded this in
  (this, read_component_body (componentsCache this) href name0).

(** *** The registered tools: arguments are checked against the input
    schema before the handler runs. *)

Inductive tool_outcome :=
| ToolReturned (r : CallToolResult)
| ToolThrew (e : js_error)
| InvalidArguments.

Definition outcome (c : completion CallToolResult) : tool_outcome :=
  match c with
  | Return r => ToolReturned r
  | Throw e => ToolThrew e
  end.

Definition categories : list string := ["ui"; "layout"; "forms"; "all"].

(** [get_components], schema: [category] is one of four literals. *)
Definition tool_get_components (this : ComponentMCPServer)
    (category : option string) : ComponentMCPServer * tool_outcome :=
  match category with
  | Some c =>
      if existsb (String.eqb c) categories
      then prod_map id outcome (getComponents this (default "all" category))
      else (this, InvalidArguments)
  | None => (this, InvalidArguments)
  end.

(** [get_component_by_name], schema: [name] is a string of 2 to 100 code
    units. *)
Definition tool_get_component_by_name (this : ComponentMCPServer)
    (name0 : string) : ComponentMCPServer * tool_outcome :=
  if Nat.leb 2 (String.length name0) && Nat.leb (String.length name0) 100
  then prod_map id outcome (getComponentByName this name0)
  else (this, InvalidArguments).

End Handlers.

(** ** The HTTP front end *)

(** A plain object used as a dictionary: own properties in a [gmap]; a key
    that is not an own property is looked up in [Object.prototype]. *)
Module Dict.

Definition object_prototype_members : list string :=
  ["constructor"; "__defineGetter__"; "__defineSetter__"; "hasOwnProperty";
   "__lookupGetter__"; "__lookupSetter__"; "isPrototypeOf";
   "propertyIsEnumerable"; "toString"; "valueOf"; "__proto__";
   "toLocaleString"].

Inductive property (V : Type) :=
| Own (v : V)
| Inherited
| Undefined.
Arguments Own {V} v.
Arguments Inherited {V}.
Arguments Undefined {V}.

(** [o[k]] *)
Definition get {V} (o : gmap string V) (k : string) : property V :=
  match o !! k with
  | Some v => Own v
  | None =>
      if existsb (String.eqb k) object_prototype_members
      then Inherited else Undefined
  end.

(** The values stored are objects, the inherited members are functions or
    objects: all truthy. *)
Definition truthy {V} (p : property V) : bool :=
  if p is Undefined then false else true.

(** [o[k] = v] *)
Definition set {V} (k : string) (v : V) (o : gmap string V) : gmap string V :=
  if String.eqb k "__proto__" then o else <[k:=v]> o.

(** [delete o[k]] *)
Definition remove {V} (k : string) (o : gmap string V) : gmap string V :=
  delete k o.

End Dict.

(** The transport of the SDK, as far as the server reads it. *)
Record StreamableHTTPServerTransport := { sessionId : option string }.

(** What the server reads of a request: the [mcp-session-id] header and
    [isInitializeRequest(req.body)]. *)
Record Request := { session_header : option string; is_initialize : bool }.

(** What the SDK does with one request, as far as the server sees it.
    [Handled]: the transport handles the request; [initializes] is the
    identifier [sessionIdGenerator] returned when a new transport accepts
    an initialize request (the transport stores it and calls
    [onsessioninitialized]); [closes] tells that the transport closed and
    called [onclose].  [ConnectFails]: [server.connect] rejects the
    transport made for the request, which then never sees the request; for
    a request that goes to a transport of the session map nothing is
    connected, and the transport handles it without calling back. *)
Inductive Handling :=
| Handled (initializes : option string) (closes : bool)
| ConnectFails (e : js_error).

Definition initializes (h : Handling) : option string :=
  if h is Handled sid _ then sid else None.

Definition closes (h : Handling) : bool :=
  if h is Handled _ closed then closed else false.

(** [await this.server.connect(transport)] *)
Definition connect (h : Handling) : completion () :=
  if h is ConnectFails e then Throw e else Return ().

Inductive Response :=
| Reply (status : Z) (body : string)
| Delegated (transport : StreamableHTTPServerTransport)
| Uncaught (e : js_error).

Definition bad_request_body : json :=
  JObject
    [("jsonrpc", JString "2.0");
     ("error",
      JObject [("code", JNumber (-32000));
               ("message", JString "Bad Request: No valid session ID provided")]);
     ("id", JNull)].

Section FrontEnd.

Local Abbreviation sessions := (gmap string StreamableHTTPServerTransport).

Definition header_truthy (h : option string) : bool :=
  if h is Some s then Str.truthy s else false.

(** [transports[sessionId]], with [sessionId] possibly undefined. *)
Definition lookup_session (transports : sessions) (h : option string)
    : Dict.property StreamableHTTPServerTransport :=
  if h is Some sid then Dict.get transports sid else Dict.Undefined.

Definition onsessioninitialized (transport : StreamableHTTPServerTransport)
    (sid : string) (transports : sessions) : sessions :=
  Dict.set sid transport transports.

Definition onclose (transport : StreamableHTTPServerTransport)
    (transports : sessions) : sessions :=
  match sessionId transport with
  | Some sid => if Str.truthy sid then Dict.remove sid transports else transports
  | None => transports
  end.

(** [await transport.handleRequest(...)] on what the session map held. *)
Definition handleRequest (transports : sessions)
    (p : Dict.property StreamableHTTPServerTransport) (h : Handling)
    : sessions * Response :=
  match p with
  | Dict.Own transport =>
      (if closes h then onclose transport transports else transports,
       Delegated transport)
  | _ => (transports, Uncaught (Error "transport.handleRequest is not a function"))
  end.

(** [await transport.handleRequest(...)] on a transport just made. *)
Definition handleRequest_new (transports : sessions) (h : Handling)
    : sessions * Response :=
  let transport := {| sessionId := initializes h |} in
  let transports :=
    if initializes h is Some sid
    then onsessioninitialized transport sid transports else transports in
  (if closes h then onclose transport transports else transports,
   Delegated transport).

(** [app.post('/mcp', ...)] *)
Definition post (transports : sessions) (req : Request) (h : Handling)
    : sessions * Response :=
  let sessionId := session_header req in
  if header_truthy sessionId && Dict.truthy (lookup_session transports sessionId)
  then handleRequest transports (lookup_session transports sessionId) h
  else if negb (header_truthy sessionId) && is_initialize req
  then match connect h with
       | Return _ => handleRequest_new transports h
       | Throw e => (transports, Uncaught e)
       end
  else (transports, Reply 400 (JSON.stringify bad_request_body)).

(** [handleSessionRequest], for GET and DELETE. *)
Definition handleSessionRequest (transports : sessions) (req : Request)
    (h : Handling) : sessions * Response :=
  let sid := session_header req in
  if negb (header_truthy sid) || negb (Dict.truthy (lookup_session transports sid))
  then (transports, Reply 400 "Invalid or missing session ID")
  else handleRequest transports (lookup_session transports sid) h.

Inductive Method := GET | POST | DELETE.

(** What happens to the session map: a request arrives, or a transport
    closes on its own. *)
Inductive event :=
| Http (m : Method) (req : Request) (h : Handling)
| Closed (transport : StreamableHTTPServerTransport).

Definition step (transports : sessions) (e : event) : sessions * option Response :=
  match e with
  | Http POST req h => prod_map id Some (post transports req h)
  | Http _ req h => prod_map id Some (handleSessionRequest transports req h)
  | Closed transport => (onclose transport transports, None)
  end.

Definition run (transports : sessions) (evs : list event) : sessions :=
  fold_left (λ t e, fst (step t e)) evs transports.

(** *** [randomUUID]: 8-4-4-4-12 lower-case hexadecimal digits, and no
    identifier is drawn twice. *)

Definition is_hex (c : ascii) : bool :=
  Char.is_digit c || Char.between 97 102 c.

Definition is_dash (c : ascii) : bool := Ascii.eqb c "-".

Definition uuid_shape : list (ascii → bool) :=
  replicate 8 is_hex ++ [is_dash] ++ replicate 4 is_hex ++ [is_dash]
  ++ replicate 4 is_hex ++ [is_dash] ++ replicate 4 is_hex ++ [is_dash]
  ++ replicate 12 is_hex.

Fixpoint has_shape (shape : list (ascii → bool)) (s : string) : bool :=
  match shape, s with
  | [], "" => true
  | p :: shape', String c s' => p c && has_shape shape' s'
  | _, _ => false
  end.

Definition is_uuid (s : string) : bool := has_shape uuid_shape s.

(** The identifiers the generator returned during the events. *)
Definition drawn (e : event) : list string :=
  match e with
  | Http _ _ h => if initializes h is Some sid then [sid] else []
  | Closed _ => []
  end.

Definition uuids_fresh (evs : list event) : Prop :=
  NoDup (evs ≫= drawn) ∧ Forall (λ sid, is_uuid sid = true) (evs ≫= drawn).

End FrontEnd.

(** ** The entry points that read the cache, as one transition *)

Definition design_tokens : json :=
  JObject
    [("colors",
      JObject
        [("primary",
          JObject [("50", JString "#eff6ff"); ("500", JString "#3b82f6");
                   ("600", JString "#2563eb"); ("700", JString "#1d4ed8")]);
         ("secondary",
          JObject [("50", JString "#f8fafc"); ("500", JString "#64748b");
                   ("600", JString "#475569"); ("700", JString "#334155")]);
         ("success", JString "#10b981");
         ("warning", JString "#f59e0b");
         ("error", JString "#ef4444")]);
     ("spacing",
      JObject [("xs", JString "0.5rem"); ("sm", JString "0.75rem");
               ("md", JString "1rem"); ("lg", JString "1.5rem");
               ("xl", JString "2rem")]);
     ("typography",
      JObject
        [("fontFamily", JString "Inter, sans-serif");
         ("fontSize",
          JObject [("xs", JString "0.75rem"); ("sm", JString "0.875rem");
                   ("base", JString "1rem"); ("lg", JString "1.125rem");
                   ("xl", JString "1.25rem")])]);
     ("borderRadius",
      JObject [("sm", JString "0.375rem"); ("md", JString "0.5rem");
               ("lg", JString "0.75rem"); ("xl", JString "1rem")])].

Definition getDesignTokens : completion CallToolResult :=
  Return (text_result (JSON.stringify2 design_tokens)).

Inductive access :=
| CallGetComponents (category : option string)
| CallGetComponentByName (name : string)
| CallGetDesignTokens
| ReadComponents (href : string)
| ReadComponent (href name : string).

Inductive answer :=
| ToolAnswer (o : tool_outcome)
| ResourceAnswer (r : completion ReadResourceResult).

(** One call or read that runs alone, from the entry of its handler to
    its answer, with the file system as its load sees it. *)
Definition serve (w : world) (this : ComponentMCPServer) (a : access)
    : ComponentMCPServer * answer :=
  match a with
  | CallGetComponents category =>
      prod_map id ToolAnswer (tool_get_components w this category)
  | CallGetComponentByName name =>
      prod_map id ToolAnswer (tool_get_component_by_name w this name)
  | CallGetDesignTokens => (this, ToolAnswer (outcome getDesignTokens))
  | ReadComponents href =>
      prod_map id ResourceAnswer (read_components w this href)
  | ReadComponent href name =>
      prod_map id ResourceAnswer (read_component w this href name)
  end.

(** The states the server object can be in. *)
Inductive reachable : ComponentMCPServer → Prop :=
| reachable_new : reachable new_server
| reachable_serve w this a :
    reachable this → reachable (fst (serve w this a)).

(** ** Calls that overlap

    The handlers are [async]: between the test [componentsCache.length ===
    0] and the assignment at the end of [loadComponents] a handler awaits
    the file system, and again awaits before it reads the cache for its
    answer; other calls run in between.  A call that finds the list
    non-empty, or that does not consult the cache, runs to its answer
    without awaiting anything. *)

(** The arguments pass the input schema of the tool and the handler tests
    the cache. *)
Definition consults (a : access) : bool :=
  match a with
  | CallGetComponents (Some c) => existsb (String.eqb c) categories
  | CallGetComponents None => false
  | CallGetComponentByName n =>
      Nat.leb 2 (String.length n) && Nat.leb (String.length n) 100
  | CallGetDesignTokens => false
  | ReadComponents _ | ReadComponent _ _ => true
  end.

(** The answer of a call made from the cache as it is when the handler
    reads it. *)
Definition respond (cache : list ComponentDefinition) (a : access) : answer :=
  match a with
  | CallGetComponents (Some c) =>
      ToolAnswer (if existsb (String.eqb c) categories
                  then outcome (getComponents_body cache c)
                  else InvalidArguments)
  | CallGetComponents None => ToolAnswer InvalidArguments
  | CallGetComponentByName n =>
      ToolAnswer (if Nat.leb 2 (String.length n) && Nat.leb (String.length n) 100
                  then outcome (getComponentByName_body cache n)
                  else InvalidArguments)
  | CallGetDesignTokens => ToolAnswer (outcome getDesignTokens)
  | ReadComponents href => ResourceAnswer (read_components_body cache href)
  | ReadComponent href n => ResourceAnswer (read_component_body cache href n)
  end.

(** A call that found the cache empty: it awaits its load, or the load has
    assigned the cache and the handler has not resumed yet. *)
Inductive task :=
| Loading (a : access)
| Loaded (a : access).

(** The server object and the calls that are under way. *)
Record process := {
  server : ComponentMCPServer;
  pending : gmap nat task;
}.

Definition start : process := {| server := new_server; pending := ∅ |}.

(** What runs next: the handler of a new call is entered; the load of a
    call ends, having read the file system as [w]; a handler resumes after
    its load. *)
Inductive moment :=
| Arrives (id : nat) (a : access)
| LoadEnds (id : nat) (w : world)
| Resumes (id : nat).

(** One turn: the state it leaves and the answer it sends, if any.  A
    moment that does not fit the state (an identifier in use, a call that
    is not at that point) changes nothing. *)
Definition tick (p : process) (m : moment) : process * option (access * answer) :=
  match m with
  | Arrives id a =>
      if consults a && Nat.eqb (length (componentsCache (server p))) 0
      then
        (if pending p !! id is None
         then {| server := server p; pending := <[id := Loading a]> (pending p) |}
         else p, None)
      else (p, Some (a, respond (componentsCache (server p)) a))
  | LoadEnds id w =>
      match pending p !! id with
      | Some (Loading a) =>
          ({| server := loadComponents w (server p);
              pending := <[id := Loaded a]> (pending p) |}, None)
      | _ => (p, None)
      end
  | Resumes id =>
      match pending p !! id with
      | Some (Loaded a) =>
          ({| server := server p; pending := delete id (pending p) |},
           Some (a, respond (componentsCache (server p)) a))
      | _ => (p, None)
      end
  end.

Definition ticks (p : process) (ms : list moment) : process :=
  fold_left (λ p m, fst (tick p m)) ms p.

(** No load is under way. *)
Definition no_load_running (p : process) : Prop :=
  ∀ id a, pending p !! id ≠ Some (Loading a).

(** ** Notions of the specification *)










(** A string of word characters. *)
Definition word_only (s : string) : bool := Str.every Char.is_word s.

(** The shape of the paths the loader stores: below [src], and ending in
    one of the two extensions the scanner keeps. *)
Definition ends_in_ts (p : string) : bool :=
  Str.endsWith p ".tsx" || Str.endsWith p ".ts".

Definition path_ok (p : string) : bool :=
  Str.startsWith p "src/" && ends_in_ts p.

Definition cache_paths_ok (this : ComponentMCPServer) : Prop :=
  ∀ c, c ∈ componentsCache this → path_ok (path c) = true.

(** What an entry of a directory adds to the scan of the directory. *)
Definition found_in (w : world) (dir : string) (e : dirent) : list string :=
  if Fs.isDirectory e
  then scan_node w (Path.join dir (dirent_name e)) (dirent_target e)
  else if ends_in_ts (dirent_name e) then [Path.join dir (dirent_name e)]
  else [].

(** The sub-scan of an entry can be pushed: it has no more paths than the
    engine takes arguments. *)
Definition fits (w : world) (dir : string) (e : dirent) : Prop :=
  (N.of_nat (length (scan_node w (Path.join dir (dirent_name e)) (dirent_target e)))
   ≤ max_arguments w)%N.



(** The event ends the live session [sid]: its transport closes on its own,
    or while it handles a request sent with that identifier. *)
Definition terminates (transports : gmap string StreamableHTTPServerTransport)
    (sid : string) (e : event) : Prop :=
  match e with
  | Closed transport => transports !! sid = Some transport
  | Http _ req h => session_header req = Some sid ∧ closes h = true
  end.

(** Every transport is registered under its own identifier. *)
Definition registered_ok (transports : gmap string StreamableHTTPServerTransport)
    : Prop :=
  ∀ sid t, transports !! sid = Some t → sessionId t = Some sid.

(** The answer to a request without a usable session. *)
Definition invalid_session (m : Method) : Response :=
  match m with
  | POST => Reply 400 (JSON.stringify bad_request_body)
  | _ => Reply 400 "Invalid or missing session ID"
  end.


Definition sample_uuid : string := "123e4567-e89b-42d3-a456-426614174000".

Definition initialize_request : Request :=
  {| session_header := None; is_initialize := true |}.

Definition request_with (sid : string) : Request :=
  {| session_header := Some sid; is_initialize := false |}.

Definition quiet : Handling := Handled None false.

(** ** Sample file systems and calls *)

Definition lines (l : list string) : string := Str.join Str.newline l.

(** A text between double quotes. *)
Definition quoted (s : string) : string := Str.dquote +:+ s +:+ Str.dquote.

(** A project at [/app] whose [src/components] holds [entries]. *)
Definition project (entries : list dirent) : world :=
  {| cwd := "/app";
     root :=
       Directory (Some [Dirent "src"
         (Directory (Some [Dirent "components" (Directory (Some entries))]))]);
     max_arguments := 100000 |}.

(** A project without [src/components]. *)
Definition project_without_components : world :=
  {| cwd := "/app"; root := Directory (Some []); max_arguments := 100000 |}.

Definition foo_one_line : string :=
  "interface FooProps { bar: string; baz?: number; }".

Definition foo_lines : string :=
  lines ["interface FooProps {"; "  bar: string;"; "  baz?: number;"; "}"].

Definition button_source : string :=
  lines ["interface ButtonProps {"; "  label: string;"; "  on?: boolean;"; "}"].

Definition project_with_button : world :=
  project [Dirent "ui" (Directory (Some [Dirent "Button.tsx" (File (Some button_source))]))].

Definition all_components : access := CallGetComponents (Some "all").

(** The record [Button.tsx] of that project parses to. *)
Definition button_record : ComponentDefinition :=
  {| name := "Button";
     path := "src/components/ui/Button.tsx";
     props := [("label", {| type := "string"; optional := false |});
               ("on", {| type := "boolean"; optional := true |})];
     usage := "<Button label={" +:+ quoted "example" +:+ "} />";
     dependencies := Some [] |}.





(** The project with the button and a file that cannot be read. *)
Definition locked_project : world :=
  project
    [Dirent "ui" (Directory (Some [Dirent "Button.tsx" (File (Some button_source))]));
     Dirent "Locked.ts" (File None)].

(** A directory [src] whose subdirectory [big] holds more files than the
    engine of this world takes arguments. *)
Definition crowded_project : world :=
  {| cwd := "/app";
     root :=
       Directory (Some [Dirent "src"
         (Directory (Some
            [Dirent "A.tsx" (File (Some ""));
             Dirent "big" (Directory (Some [Dirent "b.ts" (File None);
                                            Dirent "c.ts" (File None)]));
             Dirent "z.ts" (File (Some ""))]))]);
     max_arguments := 1 |}.

(** One call that runs alone in that project and fills the cache. *)
Definition button_loaded : list moment :=
  [Arrives 0 all_components; LoadEnds 0 project_with_button; Resumes 0].

(** ** Notions for the further properties *)

(** A property name the parser can record. *)
Definition good_key (n : string) : Prop :=
  n ≠ "" ∧ word_only n = true ∧ n ≠ "__proto__".

(** The text is empty or starts with a code unit outside the class. *)
Definition stops (p : ascii → bool) (s : string) : bool :=
  match s with
  | "" => true
  | String a _ => negb (p a)
  end.

(** The lines of a property block the reducer sees: trimmed, without the
    blank lines and the comment lines. *)
Definition prop_lines (propsContent : string) : list string :=
  Str.trim <$>
    List.filter
      (λ line, Str.truthy (Str.trim line)
               && negb (Str.startsWith (Str.trim line) "//"))
      (Str.split Char.newline propsContent).

(** A property interface written one declaration per line. *)
Definition render_line (d : string * PropConfig) : string :=
  "  " +:+ fst d +:+ (if optional (snd d) then "?" else "") +:+ ":" +:+ " "
       +:+ type (snd d) +:+ ";".

Fixpoint render_lines (ds : list (string * PropConfig)) : string :=
  match ds with
  | [] => ""
  | d :: ds' => render_line d +:+ Str.newline +:+ render_lines ds'
  end.

Definition render_interface (stem : string) (ds : list (string * PropConfig))
    : string :=
  "interface" +:+ " " +:+ stem +:+ "Props" +:+ " " +:+ "{"
    +:+ (Str.newline +:+ render_lines ds) +:+ "}".

(** A declaration that can be written on such a line: a name the parser
    records, and a non-empty type without surrounding white space,
    semicolon, closing brace or line break. *)
Definition declarable (d : string * PropConfig) : Prop :=
  good_key (fst d)
  ∧ type (snd d) ≠ ""
  ∧ Str.trim (type (snd d)) = type (snd d)
  ∧ Str.every (Char.none_of [";"%char; "}"%char; Char.newline]) (type (snd d))
    = true.

(** * Properties *)

(** ** Strings *)

Section StringFacts.

Implicit Types s t p sub suf : string.

Lemma app_nil_l s : "" +:+ s = s.
Proof. reflexivity. Qed.

Lemma app_cons c s t : String c s +:+ t = String c (s +:+ t).
Proof. reflexivity. Qed.

Lemma sep_app c s : String c "" +:+ s = String c s.
Proof. reflexivity. Qed.

Lemma app_nil_r s : s +:+ "" = s.
Proof. induction s as [|c s IH]; [done|]. by rewrite app_cons, IH. Qed.

Lemma app_assoc s t u : (s +:+ t) +:+ u = s +:+ t +:+ u.
Proof. induction s as [|c s IH]; [done|]. by rewrite !app_cons, IH. Qed.

Lemma app_length s t :
  String.length (s +:+ t) = String.length s + String.length t.
Proof. induction s as [|c s IH]; [done|]. rewrite app_cons. simpl. lia. Qed.

Lemma ascii_eqb_true a b : Ascii.eqb a b = true ↔ a = b.
Proof. apply Ascii.eqb_eq. Qed.

Lemma string_eqb_true s t : String.eqb s t = true ↔ s = t.
Proof. apply String.eqb_eq. Qed.

Lemma strip_Some p s r : Str.strip p s = Some r ↔ s = p +:+ r.
Proof.
  revert s. induction p as [|a p IH]; intros s; simpl.
  - rewrite app_nil_l. split; congruence.
  - destruct s as [|b s]; [by rewrite app_cons|].
    rewrite app_cons. destruct (Ascii.eqb a b) eqn:E.
    + apply ascii_eqb_true in E as ->. rewrite IH. split; congruence.
    + split; [done|]. intros [= -> _]. by rewrite Ascii.eqb_refl in E.
Qed.

Lemma strip_app p r : Str.strip p (p +:+ r) = Some r.
Proof. by apply strip_Some. Qed.

Lemma startsWith_true s p : Str.startsWith s p = true ↔ ∃ r, s = p +:+ r.
Proof.
  unfold Str.startsWith. destruct (Str.strip p s) as [r|] eqn:E.
  - apply strip_Some in E. split; eauto.
  - split; [done|]. intros [r Hr]. apply strip_Some in Hr. congruence.
Qed.

Lemma includes_true s sub :
  Str.includes s sub = true ↔ ∃ a b, s = a +:+ sub +:+ b.
Proof.
  induction s as [|c s IH]; simpl; rewrite orb_true_iff, startsWith_true.
  - split.
    + intros [[r Hr]|]; [|done]. by exists "", r.
    + intros (a & b & H). left. destruct a; [by exists b|discriminate].
  - rewrite IH. split.
    + intros [[r Hr]|(a & b & Hab)].
      * by exists "", r.
      * exists (String c a), b. by rewrite app_cons, Hab.
    + intros (a & b & H). destruct a as [|c' a].
      * left. by exists b.
      * right. rewrite app_cons in H. injection H as -> ->. by exists a, b.
Qed.

Lemma endsWith_cons c s suf :
  Str.endsWith (String c s) suf = String.eqb (String c s) suf || Str.endsWith s suf.
Proof. reflexivity. Qed.

Lemma endsWith_nil suf : Str.endsWith "" suf = String.eqb "" suf || false.
Proof. reflexivity. Qed.

Lemma endsWith_true s suf : Str.endsWith s suf = true ↔ ∃ a, s = a +:+ suf.
Proof.
  induction s as [|c s IH].
  - rewrite endsWith_nil, orb_true_iff, string_eqb_true. split.
    + intros [<-|]; [by exists ""|done].
    + intros [a H]. left. destruct a; [done|discriminate].
  - rewrite endsWith_cons, orb_true_iff, string_eqb_true, IH. split.
    + intros [<-|[a ->]]; [by exists ""|]. by exists (String c a).
    + intros [a H]. destruct a as [|c' a]; [by left|].
      right. rewrite app_cons in H. injection H as -> ->. by exists a.
Qed.

Lemma endsWith_app s t suf :
  Str.endsWith t suf = true → Str.endsWith (s +:+ t) suf = true.
Proof.
  rewrite !endsWith_true. intros [a ->]. exists (s +:+ a). by rewrite app_assoc.
Qed.

Lemma truthy_true s : Str.truthy s = true ↔ s ≠ "".
Proof. by destruct s. Qed.

End StringFacts.

(** ** The cache *)

Section CacheFacts.

Implicit Types (w : world) (this : ComponentMCPServer).

Lemma scanForComponents_returns w dir :
  ∃ files, scanForComponents w dir = Return files.
Proof. by eexists. Qed.

Lemma parseComponent_returns w filePath :
  ∃ c, parseComponent w filePath = Return c.
Proof.
  unfold parseComponent. destruct (Fs.readFile w filePath); by eexists.
Qed.

Lemma promise_all_parse w files :
  promise_all (parseComponent w) files
  = Return ((λ f, if parseComponent w f is Return c then c
                  else {| name := ""; path := ""; props := []; usage := "";
                          dependencies := None |}) <$> files).
Proof.
  induction files as [|f files IH]; [done|]. simpl.
  destruct (parseComponent_returns w f) as [c ->]. simpl. by rewrite IH.
Qed.

Lemma load_scanned w this files :
  scanForComponents w (componentsDir w) = Return files →
  ∀ c, c ∈ componentsCache (loadComponents w this) →
       ∃ f, f ∈ files ∧ parseComponent w f = Return c.
Proof.
  intros Hs c. unfold loadComponents. rewrite Hs. simpl.
  rewrite promise_all_parse. simpl. rewrite list_elem_of_fmap.
  intros (f & -> & Hf). exists f. split; [done|].
  by destruct (parseComponent_returns w f) as [c ->].
Qed.

Lemma ensure_loaded_nonempty w this :
  componentsCache this ≠ [] → ensure_loaded w this = this.
Proof.
  unfold ensure_loaded. by destruct (componentsCache this).
Qed.

Lemma ensure_loaded_empty w this :
  componentsCache this = [] → ensure_loaded w this = loadComponents w this.
Proof. unfold ensure_loaded. by intros ->. Qed.

Lemma serve_respond w this a :
  serve w this a
  = (if consults a then ensure_loaded w this else this,
     respond (componentsCache (if consults a then ensure_loaded w this else this))
       a).
Proof.
  destruct a as [[c|]|n| | |]; unfold serve, consults, respond; try done.
  - unfold tool_get_components.
    by destruct (existsb (String.eqb c) categories).
  - unfold tool_get_component_by_name. by destruct (_ && _).
Qed.

Lemma serve_state w this a :
  fst (serve w this a) = this ∨ fst (serve w this a) = ensure_loaded w this.
Proof. rewrite serve_respond. destruct (consults a); auto. Qed.


End CacheFacts.

(** C1, as the source has it.  When [src/components] cannot be listed
    (missing, unreadable, not a directory) or has no entries, the load
    completes and leaves the empty list in the cache: the scanner swallows
    the failure, so the handler that would install the two default records
    is not entered. *)
Theorem load_of_empty_root (w : world) (this : ComponentMCPServer) :
  Fs.readdir w (componentsDir w) = None
  ∨ Fs.readdir w (componentsDir w) = Some [] →
  componentsCache (loadComponents w this) = [].
Proof.
  unfold loadComponents, scanForComponents, Fs.readdir.
  destruct (Fs.resolve w (componentsDir w)) as [[c|[es|]]|]; simpl;
    try done.
  intros [?|[= ->]]; done.
Qed.

Lemma load_of_empty_root_witness :
  componentsCache (loadComponents project_without_components new_server) = [].
Proof. apply load_of_empty_root. left. reflexivity. Defined.

(** C1 as stated fails: without [src/components] the cached list is not the
    list of the two default records. *)
Lemma load_of_missing_root_not_defaults :
  Fs.readdir project_without_components (componentsDir project_without_components)
  = None
  ∧ componentsCache (loadComponents project_without_components new_server)
    ≠ getDefaultComponents.
Proof. split; [reflexivity|discriminate]. Qed.

(** ** Calls that overlap *)

Section OverlapFacts.

Implicit Types (p : process) (m : moment) (ms : list moment) (a : access)
  (r : answer).

(** A turn that answers leaves the server object as it is, and the answer
    is made from the cache of that moment. *)
Lemma tick_answer p m a r :
  snd (tick p m) = Some (a, r) →
  server (fst (tick p m)) = server p
  ∧ r = respond (componentsCache (server p)) a.
Proof.
  destruct m as [id a'|id w|id]; simpl.
  - destruct (consults a' && _); simpl; [done|]. by intros [= -> ->].
  - by destruct (pending p !! id) as [[]|].
  - destruct (pending p !! id) as [[]|]; simpl; try done. by intros [= -> ->].
Qed.

Lemma ticks_cons p m ms : ticks p (m :: ms) = ticks (fst (tick p m)) ms.
Proof. done. Qed.



(** A call that runs alone is [serve]: with a list in the cache, or when
    it does not consult the cache, its first turn answers. *)
Lemma call_alone_at_once w this a id (calls : gmap nat task) :
  consults a = false ∨ componentsCache this ≠ [] →
  tick {| server := this; pending := calls |} (Arrives id a)
  = ({| server := fst (serve w this a); pending := calls |},
     Some (a, snd (serve w this a))).
Proof.
  intros H. rewrite serve_respond. simpl. destruct H as [->|H]; [done|].
  rewrite ensure_loaded_nonempty by done.
  destruct (componentsCache this) eqn:E; [done|].
  cbn [length Nat.eqb]. rewrite andb_false_r, <- E. by destruct (consults a).
Qed.

(** With the cache empty, its three turns in a row are [serve]. *)
Lemma call_alone_loading w this a id (calls : gmap nat task) :
  consults a = true → componentsCache this = [] → calls !! id = None →
  let p := {| server := this; pending := calls |} in
  snd (tick p (Arrives id a)) = None
  ∧ snd (tick (ticks p [Arrives id a]) (LoadEnds id w)) = None
  ∧ tick (ticks p [Arrives id a; LoadEnds id w]) (Resumes id)
    = ({| server := fst (serve w this a); pending := calls |},
       Some (a, snd (serve w this a))).
Proof.
  intros Ha Hc Hid. cbv zeta. rewrite serve_respond, Ha.
  rewrite ensure_loaded_empty by done.
  unfold ticks. simpl. rewrite Ha, Hc, Hid. simpl.
  rewrite lookup_insert_eq. simpl. rewrite lookup_insert_eq. simpl.
  split; [done|]. split; [done|]. f_equal. f_equal.
  rewrite insert_insert_eq, delete_insert_eq. by apply delete_id.
Qed.

(** With a list in the cache and no load under way, a turn changes neither
    the server object nor that. *)
Lemma tick_settled p m :
  componentsCache (server p) ≠ [] → no_load_running p →
  server (fst (tick p m)) = server p ∧ no_load_running (fst (tick p m)).
Proof.
  intros Hc Hn. destruct m as [id a|id w|id]; simpl.
  - destruct (componentsCache (server p)) eqn:E; [done|].
    simpl. by rewrite andb_false_r.
  - destruct (pending p !! id) as [[a|a]|] eqn:E; try done.
    by destruct (Hn id a).
  - destruct (pending p !! id) as [[a|a]|] eqn:E; try done. simpl.
    split; [done|]. intros id' a' H. simpl in H.
    apply (proj1 (lookup_delete_Some _ _ _ _)) in H as [_ H].
    by destruct (Hn id' a').
Qed.

Lemma ticks_settled p ms :
  componentsCache (server p) ≠ [] → no_load_running p →
  server (ticks p ms) = server p ∧ no_load_running (ticks p ms).
Proof.
  revert p. induction ms as [|m ms IH]; intros p Hc Hn; [done|].
  rewrite ticks_cons. destruct (tick_settled p m Hc Hn) as [E Hn'].
  destruct (IH (fst (tick p m))) as [E' Hn'']; [by rewrite E|done|].
  split; [by rewrite E', E|done].
Qed.

End OverlapFacts.

(** C3, as the source has it.  Calls overlap, and a handler awaits between
    its test of the cache and the assignment of its load.  Once the cache
    holds a non-empty list and no load is under way, whatever calls and
    reads follow, in whatever order their turns come: the server object
    stays as it is, no load starts, a turn in which a load would end does
    nothing, every call is answered in the turn it arrives, and every
    answer is made from that stored list, without the file system. *)
Theorem cache_kept_once_nonempty (p : process) (ms : list moment) :
  componentsCache (server p) ≠ [] →
  no_load_running p →
  server (ticks p ms) = server p
  ∧ no_load_running (ticks p ms)
  ∧ (∀ id w, tick (ticks p ms) (LoadEnds id w) = (ticks p ms, None))
  ∧ (∀ id a,
       tick (ticks p ms) (Arrives id a)
       = (ticks p ms, Some (a, respond (componentsCache (server p)) a)))
  ∧ (∀ m a r,
       snd (tick (ticks p ms) m) = Some (a, r) →
       r = respond (componentsCache (server p)) a).
Proof.
  intros Hc Hn. destruct (ticks_settled p ms Hc Hn) as [E Hn'].
  split; [done|]. split; [done|]. split; [|split].
  - intros id w. simpl.
    destruct (pending (ticks p ms) !! id) as [[a|a]|] eqn:El; try done.
    by destruct (Hn' id a).
  - intros id a. simpl. rewrite E.
    destruct (componentsCache (server p)) eqn:Ec; [done|].
    simpl. by rewrite andb_false_r.
  - intros m a r H. apply tick_answer in H as [_ ->]. by rewrite E.
Qed.

Lemma cache_kept_once_nonempty_witness :
  let p := ticks start button_loaded in
  let ms := [Arrives 1 (ReadComponents "components://all");
             LoadEnds 1 project_without_components; Resumes 1;
             Arrives 2 (CallGetComponentByName "button")] in
  componentsCache (server p) = [button_record]
  ∧ server (ticks p ms) = server p
  ∧ no_load_running (ticks p ms)
  ∧ (∀ id w, tick (ticks p ms) (LoadEnds id w) = (ticks p ms, None))
  ∧ (∀ id a,
       tick (ticks p ms) (Arrives id a)
       = (ticks p ms, Some (a, respond (componentsCache (server p)) a)))
  ∧ (∀ m a r,
       snd (tick (ticks p ms) m) = Some (a, r) →
       r = respond (componentsCache (server p)) a).
Proof.
  split; [reflexivity|].
  apply (cache_kept_once_nonempty (ticks start button_loaded)).
  - vm_compute. discriminate.
  - intros id a. vm_compute. discriminate.
Defined.

(** C3 as stated fails: a first load that completes with the empty list is
    followed by a second load on the next call, and the stored list
    changes when components have appeared in between. *)
Lemma empty_cache_is_loaded_again :
  let first := fst (serve project_without_components new_server all_components) in
  let second := fst (serve project_with_button first all_components) in
  componentsCache first = []
  ∧ componentsCache second ≠ componentsCache first.
Proof. vm_compute. split; [reflexivity|discriminate]. Qed.

(** A load that was under way when a list was stored assigns the cache
    when it ends: here the load of a second call, which finds no
    component, empties the cache that the load of the first call filled,
    and the call after that loads again. *)
Lemma late_load_replaces_cache :
  let p := ticks start [Arrives 0 all_components; Arrives 1 all_components;
                        LoadEnds 0 project_with_button; Resumes 0] in
  componentsCache (server p) = [button_record]
  ∧ componentsCache (server (ticks p [LoadEnds 1 project_without_components]))
    = []
  ∧ snd (tick (ticks p [LoadEnds 1 project_without_components])
           (Arrives 2 all_components)) = None.
Proof. by vm_compute. Qed.

(** ** Case *)

Section CaseFacts.

Implicit Types (a b : ascii) (s t : string).





End CaseFacts.

(** ** Lookup by name *)

Section LookupFacts.

Implicit Types (w : world) (this : ComponentMCPServer)
  (cache : list ComponentDefinition).




Lemma getComponentByName_state w this name0 :
  fst (getComponentByName w this name0) = ensure_loaded w this.
Proof. done. Qed.

Lemma tool_by_name_valid w this name0 :
  2 ≤ String.length name0 ≤ 100 →
  tool_get_component_by_name w this name0
  = prod_map id outcome (getComponentByName w this name0).
Proof.
  intros [H2 H100]. unfold tool_get_component_by_name.
  apply Nat.leb_le in H2, H100. by rewrite H2, H100.
Qed.


End LookupFacts.






(** ** Sessions *)

Section SessionFacts.

Implicit Types (transports : gmap string StreamableHTTPServerTransport)
  (req : Request) (h : Handling) (e : event) (sid : string).

Lemma has_shape_length shape s :
  has_shape shape s = true → String.length s = length shape.
Proof.
  revert s. induction shape as [|p shape IH]; intros [|c s]; simpl; try done.
  intros [_ H]%andb_true_iff. by rewrite (IH _ H).
Qed.

Lemma uuid_length sid : is_uuid sid = true → String.length sid = 36.
Proof. apply has_shape_length. Qed.

Lemma uuid_truthy sid : is_uuid sid = true → Str.truthy sid = true.
Proof. intros H%uuid_length. by destruct sid. Qed.

Lemma uuid_not_inherited sid :
  is_uuid sid = true →
  existsb (String.eqb sid) Dict.object_prototype_members = false.
Proof.
  intros H%uuid_length. apply not_true_iff_false. intros Hin.
  apply existsb_exists in Hin as (k & Hk & ->%string_eqb_true).
  unfold Dict.object_prototype_members in Hk. simpl in Hk.
  repeat (destruct Hk as [<-|Hk]; [discriminate H|]). done.
Qed.

Lemma uuid_not_proto sid : is_uuid sid = true → String.eqb sid "__proto__" = false.
Proof.
  intros H%uuid_length. apply not_true_iff_false.
  intros ->%string_eqb_true. discriminate H.
Qed.

Lemma get_absent transports sid :
  is_uuid sid = true → transports !! sid = None →
  Dict.get transports sid = Dict.Undefined.
Proof.
  intros Hu Hn. unfold Dict.get. by rewrite Hn, (uuid_not_inherited _ Hu).
Qed.

(** A request that names a session the map does not hold. *)
Lemma step_unknown transports m req h sid :
  session_header req = Some sid → Str.truthy sid = true →
  Dict.get transports sid = Dict.Undefined →
  step transports (Http m req h) = (transports, Some (invalid_session m)).
Proof.
  intros Hh Ht Hg.
  destruct m; simpl; unfold post, handleSessionRequest;
    rewrite Hh; simpl; rewrite Ht, Hg; done.
Qed.

Lemma onclose_lookup transports t sid t' :
  onclose t transports !! sid = Some t' → transports !! sid = Some t'.
Proof.
  unfold onclose, Dict.remove. destruct (sessionId t) as [k|]; [|done].
  destruct (Str.truthy k); [|done].
  rewrite lookup_delete. by case_decide.
Qed.

Lemma onclose_removes transports t sid :
  sessionId t = Some sid → Str.truthy sid = true →
  onclose t transports !! sid = None.
Proof.
  intros Hs Ht. unfold onclose, Dict.remove. rewrite Hs, Ht.
  apply lookup_delete_eq.
Qed.

Lemma handleRequest_lookup transports p h sid t' :
  fst (handleRequest transports p h) !! sid = Some t' →
  transports !! sid = Some t'.
Proof.
  unfold handleRequest. destruct p as [t| |]; simpl; [|done..].
  destruct (closes h); [apply onclose_lookup|done].
Qed.

Lemma handleRequest_new_lookup transports h sid t' :
  fst (handleRequest_new transports h) !! sid = Some t' →
  transports !! sid = Some t'
  ∨ (initializes h = Some sid ∧ sessionId t' = Some sid).
Proof.
  unfold handleRequest_new. simpl. intros H.
  assert ((if initializes h is Some k
           then onsessioninitialized {| sessionId := initializes h |} k transports
           else transports) !! sid = Some t') as H'.
  { destruct (closes h); [by apply onclose_lookup in H|done]. }
  clear H. destruct (initializes h) as [k|] eqn:E; [|by left].
  unfold onsessioninitialized, Dict.set in H'.
  destruct (String.eqb k "__proto__"); [by left|].
  rewrite lookup_insert in H'. case_decide as Hk; [|by left].
  subst k. injection H' as <-. by right.
Qed.

Lemma step_lookup transports e sid t' :
  fst (step transports e) !! sid = Some t' →
  transports !! sid = Some t' ∨ (sid ∈ drawn e ∧ sessionId t' = Some sid).
Proof.
  destruct e as [m req h|t]; simpl.
  - assert (fst (post transports req h) !! sid = Some t' →
            transports !! sid = Some t'
            ∨ (initializes h = Some sid ∧ sessionId t' = Some sid)) as Hpost.
    { unfold post. destruct (_ && _).
      - intros H%handleRequest_lookup. by left.
      - destruct (_ && _); [|by left].
        destruct (connect h); [apply handleRequest_new_lookup|by left]. }
    assert (fst (handleSessionRequest transports req h) !! sid = Some t' →
            transports !! sid = Some t') as Hother.
    { unfold handleSessionRequest.
      destruct (_ || _); [done|apply handleRequest_lookup]. }
    intros H.
    assert (transports !! sid = Some t'
            ∨ (initializes h = Some sid ∧ sessionId t' = Some sid)) as [?|[Hi ?]].
    { destruct m; simpl in H; auto. }
    + by left.
    + right. split; [|done]. rewrite Hi. apply list_elem_of_singleton. done.
  - intros H%onclose_lookup. by left.
Qed.

Lemma step_registered_ok transports e :
  registered_ok transports → registered_ok (fst (step transports e)).
Proof.
  intros Hok sid t' H. apply step_lookup in H as [H|[_ H]]; [|done].
  by apply Hok.
Qed.

Lemma run_snoc transports evs e :
  run transports (evs ++ [e]) = fst (step (run transports evs) e).
Proof. unfold run. by rewrite fold_left_app. Qed.

Lemma run_app transports evs evs' :
  run transports (evs ++ evs') = run (run transports evs) evs'.
Proof. unfold run. by rewrite fold_left_app. Qed.

Lemma run_cons transports e evs :
  run transports (e :: evs) = run (fst (step transports e)) evs.
Proof. done. Qed.

Lemma run_lookup evs transports sid t' :
  run transports evs !! sid = Some t' →
  transports !! sid = Some t' ∨ sid ∈ evs ≫= drawn.
Proof.
  revert transports. induction evs as [|e evs IH]; intros transports H.
  - by left.
  - rewrite run_cons in H. apply IH in H as [H|H].
    + apply step_lookup in H as [H|[H _]]; [by left|].
      right. rewrite bind_cons. apply elem_of_app. by left.
    + right. rewrite bind_cons. apply elem_of_app. by right.
Qed.

Lemma run_registered_ok evs transports :
  registered_ok transports → registered_ok (run transports evs).
Proof.
  revert transports. induction evs as [|e evs IH]; intros transports H; [done|].
  rewrite run_cons. by apply IH, step_registered_ok.
Qed.

Lemma terminates_removes transports sid t e :
  registered_ok transports → transports !! sid = Some t →
  Str.truthy sid = true → terminates transports sid e →
  fst (step transports e) !! sid = None.
Proof.
  intros Hok Hlive Ht Hterm. pose proof (Hok _ _ Hlive) as Hsid.
  assert (Dict.get transports sid = Dict.Own t) as Hget.
  { unfold Dict.get. by rewrite Hlive. }
  destruct e as [m req h|t0]; simpl in Hterm.
  - destruct Hterm as [Hh Hc].
    destruct m; simpl; unfold post, handleSessionRequest;
      rewrite Hh; simpl; rewrite Ht, Hget; simpl; rewrite Hc;
      by apply onclose_removes.
  - simpl. apply onclose_removes; [|done]. by apply Hok.
Qed.

End SessionFacts.




(** C10, as the source has it.  A session is registered by a POST only
    when the session header is absent or empty and the body is an
    initialize request (the identifier being the one the generator
    returned); a POST whose header is a non-empty value for which the
    session map yields nothing is answered with status 400 and leaves the
    map as it was, whatever its body. *)
Theorem session_created_only_without_header
    (transports : gmap string StreamableHTTPServerTransport)
    (req : Request) (h : Handling) :
  (∀ sid, session_header req = Some sid → sid ≠ "" →
          Dict.get transports sid = Dict.Undefined →
          post transports req h
          = (transports, Reply 400 (JSON.stringify bad_request_body)))
  ∧ (∀ sid, transports !! sid = None →
            is_Some (fst (post transports req h) !! sid) →
            header_truthy (session_header req) = false
            ∧ is_initialize req = true ∧ initializes h = Some sid).
Proof.
  split.
  - intros sid Hh Hne Hg. unfold post. rewrite Hh. simpl. rewrite Hg.
    apply truthy_true in Hne. rewrite Hne. done.
  - intros sid Hnone [t Ht]. unfold post in Ht.
    destruct (header_truthy (session_header req)
              && Dict.truthy (lookup_session transports (session_header req))).
    { apply handleRequest_lookup in Ht. congruence. }
    destruct (header_truthy (session_header req)); simpl in Ht; [congruence|].
    destruct (is_initialize req); simpl in Ht; [|congruence].
    destruct (connect h); [|simpl in Ht; congruence].
    apply handleRequest_new_lookup in Ht as [Ht|[Ht _]]; [congruence|done].
Qed.

Lemma session_created_only_without_header_witness :
  post ∅ {| session_header := Some "stale"; is_initialize := true |} quiet
  = (∅, Reply 400 (JSON.stringify bad_request_body))
  ∧ (header_truthy (session_header initialize_request) = false
     ∧ is_initialize initialize_request = true
     ∧ initializes (Handled (Some sample_uuid) false)
       = Some sample_uuid).
Proof.
  split.
  - apply (proj1 (session_created_only_without_header ∅
                    {| session_header := Some "stale"; is_initialize := true |}
                    quiet) "stale"); [reflexivity|discriminate|reflexivity].
  - apply (proj2 (session_created_only_without_header ∅ initialize_request
                    (Handled (Some sample_uuid) false))
             sample_uuid); [reflexivity|].
    vm_compute. eexists. reflexivity.
Defined.

(** C10 as stated fails: a POST that carries the session header with an
    empty value and an initialize body is handed to a new transport, and
    the session the transport starts is registered. *)
Lemma empty_header_starts_session :
  let req := {| session_header := Some ""; is_initialize := true |} in
  let h := (Handled (Some sample_uuid) false) in
  snd (post ∅ req h) = Delegated {| sessionId := Some sample_uuid |}
  ∧ fst (post ∅ req h) !! sample_uuid = Some {| sessionId := Some sample_uuid |}.
Proof. split; reflexivity. Qed.

(** A header value that names an inherited member of the session map is
    taken for a session: the lookup yields the member, which has no
    [handleRequest], and the handler fails instead of answering. *)
Lemma unknown_inherited_name_not_rejected (m : Method) :
  step ∅ (Http m (request_with "constructor") quiet)
  = (∅, Some (Uncaught (Error "transport.handleRequest is not a function"))).
Proof. by destruct m. Qed.

(** C9.  Identifiers come from [randomUUID] and none is drawn twice.  Once
    a live session has ended (its transport closed, on its own or while
    handling a request such as DELETE), its identifier is no longer in the
    session map, whatever happens afterwards, and every later GET, POST or
    DELETE that carries it is answered with the invalid-session error of
    its method, the map staying as it is. *)
Theorem terminated_session_unusable (before after : list event) (e : event)
    (sid : string) (m : Method) (req : Request) (h : Handling) :
  uuids_fresh (before ++ e :: after) →
  is_Some (run ∅ before !! sid) →
  terminates (run ∅ before) sid e →
  session_header req = Some sid →
  run ∅ (before ++ e :: after) !! sid = None
  ∧ step (run ∅ (before ++ e :: after)) (Http m req h)
    = (run ∅ (before ++ e :: after), Some (invalid_session m)).
Proof.
  intros [Hnd Huuid] [t Hlive] Hterm Hh.
  assert (registered_ok (run ∅ before)) as Hok.
  { apply run_registered_ok. intros k t' Hk. by rewrite lookup_empty in Hk. }
  assert (sid ∈ before ≫= drawn) as Hdrawn.
  { apply run_lookup in Hlive as [Hl|Hl]; [by rewrite lookup_empty in Hl|done]. }
  rewrite bind_app in Hnd, Huuid.
  assert (is_uuid sid = true) as Hu.
  { rewrite Forall_forall in Huuid. apply Huuid, elem_of_app. by left. }
  assert (run ∅ (before ++ e :: after) !! sid = None) as Hgone.
  { rewrite run_app, run_cons.
    destruct (run _ after !! sid) as [t'|] eqn:E; [|done].
    apply run_lookup in E as [E|E].
    - rewrite (terminates_removes _ sid t e Hok Hlive (uuid_truthy _ Hu) Hterm) in E.
      done.
    - apply NoDup_app in Hnd as (_ & Hdisj & _).
      destruct (Hdisj sid Hdrawn). rewrite bind_cons. apply elem_of_app. by right. }
  split; [done|].
  apply (step_unknown _ _ _ _ sid Hh (uuid_truthy _ Hu)).
  by apply get_absent.
Qed.

Lemma terminated_session_unusable_witness :
  let before := [Http POST initialize_request
                   (Handled (Some sample_uuid) false)] in
  let e := Http DELETE (request_with sample_uuid)
             (Handled None true) in
  run ∅ (before ++ e :: []) !! sample_uuid = None
  ∧ step (run ∅ (before ++ e :: [])) (Http GET (request_with sample_uuid) quiet)
    = (run ∅ (before ++ e :: []), Some (invalid_session GET)).
Proof.
  apply (terminated_session_unusable
           [Http POST initialize_request
              (Handled (Some sample_uuid) false)]
           []
           (Http DELETE (request_with sample_uuid)
              (Handled None true))
           sample_uuid GET (request_with sample_uuid) quiet).
  - split; [vm_compute|vm_compute].
    + apply NoDup_cons. split; [apply not_elem_of_nil|apply NoDup_nil_2].
    + apply Forall_cons. split; [reflexivity|apply Forall_nil_2].
  - vm_compute. eexists. reflexivity.
  - split; reflexivity.
  - reflexivity.
Defined.

(** ** The matcher *)

Section RegexFacts.

Context {R : Type}.
Implicit Types (p : ascii → bool) (s : string) (c : Regex.captures)
  (k : string → Regex.captures → option R) (r : Regex.t).

Lemma take_app_length (a b : string) :
  Str.take (String.length (a +:+ b) - String.length b) (a +:+ b) = a.
Proof.
  rewrite app_length. replace (_ + _ - _) with (String.length a) by lia.
  induction a as [|x a IH]; [by destruct b|]. rewrite app_cons. simpl.
  by rewrite IH.
Qed.

Lemma run_seq r1 r2 s c k :
  Regex.run (Regex.Seq r1 r2) s c k
  = Regex.run r1 s c (λ s' c', Regex.run r2 s' c' k).
Proof. reflexivity. Qed.

Lemma run_group i r s c k :
  Regex.run (Regex.Group i r) s c k
  = Regex.run r s c (λ s' c',
      k s' ((i, Str.take (String.length s - String.length s') s) :: c')).
Proof. reflexivity. Qed.

(** What [p*] consumed satisfies [p]. *)
Lemma star_inv p s c k x :
  Regex.star p s c k = Some x →
  ∃ pre s', s = pre +:+ s' ∧ Str.every p pre = true ∧ k s' c = Some x.
Proof.
  induction s as [|a s IH]; simpl.
  - intros H. by exists "", "".
  - destruct (p a) eqn:Hp; [|intros H; by exists "", (String a s)].
    destruct (Regex.star p s c k) as [y|] eqn:E.
    + intros [= ->]. destruct (IH eq_refl) as (pre & s' & -> & Hpre & Hk).
      exists (String a pre), s'. simpl. by rewrite Hp, Hpre.
    + intros H. by exists "", (String a s).
Qed.

Lemma plus_inv p s c k x :
  Regex.run (Regex.Plus p) s c k = Some x →
  ∃ pre s', s = pre +:+ s' ∧ pre ≠ "" ∧ Str.every p pre = true ∧ k s' c = Some x.
Proof.
  simpl. destruct s as [|a s]; [done|]. destruct (p a) eqn:Hp; [|done].
  intros (pre & s' & -> & Hpre & Hk)%star_inv.
  exists (String a pre), s'. simpl. by rewrite Hp, Hpre.
Qed.

(** A match leaves the captures of the groups it does not hold as they
    were. *)
Lemma run_frame r s c k x :
  Regex.run r s c k = Some x →
  ∃ s' c', k s' c' = Some x
           ∧ ∀ i, i ∉ Regex.group_ids r → Regex.capture i c' = Regex.capture i c.
Proof.
  revert s c k. induction r as [l|p|p|p|r IH|i r IH|r1 IH1 r2 IH2];
    intros s c k.
  - simpl. destruct (Str.strip l s) as [s'|]; [|done]. intros H. by exists s', c.
  - simpl. destruct s as [|a s]; [done|]. destruct (p a); [|done].
    intros H. by exists s, c.
  - intros (pre & s' & _ & _ & Hk)%star_inv. by exists s', c.
  - intros (pre & s' & _ & _ & _ & Hk)%plus_inv. by exists s', c.
  - simpl. destruct (Regex.run r s c k) as [y|] eqn:E.
    + intros [= ->]. by apply IH in E.
    + intros H. by exists s, c.
  - simpl. intros (s' & c' & Hk & Hc)%IH. eexists _, _. split; [exact Hk|].
    intros j Hj. apply not_elem_of_cons in Hj as [Hji Hj].
    rewrite <- (Hc j Hj). unfold Regex.capture. simpl.
    destruct (Nat.eqb_spec i j); [congruence|done].
  - simpl. intros (s1 & c1 & H2 & Hc1)%IH1.
    apply IH2 in H2 as (s2 & c2 & Hk & Hc2). exists s2, c2. split; [done|].
    intros j Hj. apply not_elem_of_app in Hj as [Hj1 Hj2].
    by rewrite (Hc2 j Hj2), (Hc1 j Hj1).
Qed.

End RegexFacts.

Lemma exec_inv (r : Regex.t) (s : string) (m : Regex.result) :
  Regex.exec r s = Some m → ∃ s0, Regex.at_start r s0 = Some m.
Proof.
  induction s as [|a s IH]; simpl.
  - destruct (Regex.at_start r "") eqn:E; [|done]. intros [= ->]. by exists "".
  - destruct (Regex.at_start r (String a s)) eqn:E.
    + intros [= ->]. by eexists.
    + apply IH.
Qed.

(** The first group of the property-line pattern holds word characters. *)
Lemma prop_line_name (line : string) (m : Regex.result) :
  Regex.exec prop_line_pattern line = Some m →
  ∃ n, Regex.capture 1 (Regex.groups m) = Some n ∧ word_only n = true.
Proof.
  intros [s0 H]%exec_inv. unfold Regex.at_start in H.
  change prop_line_pattern with
    (Regex.Seq (Regex.Group 1 (Regex.Plus Char.is_word))
       (Regex.seq
          [ Regex.Opt (Regex.Group 2 (Regex.Lit "?"));
            Regex.Lit ":"; Regex.Star Char.is_space;
            Regex.Group 3 (Regex.Plus (Char.none_of [";"%char])) ])) in H.
  rewrite run_seq, run_group in H.
  apply plus_inv in H as (pre & s' & -> & _ & Hpre & H).
  rewrite take_app_length in H.
  apply run_frame in H as (s2 & c2 & [= <-] & Hc). simpl.
  exists pre. split; [|done]. rewrite Hc; [done|].
  vm_compute. intros Hin. repeat (inversion_clear Hin as [|? ? ? Hin']; rename Hin' into Hin).
Qed.

(** ** Objects *)

Section ObjFacts.

Context {V : Type}.
Implicit Types (o : Obj.t V) (e : string * V) (k : string) (v : V).

Lemma assign_elem k v o e : e ∈ Obj.assign k v o → e ∈ o ∨ fst e = k.
Proof.
  induction o as [|[k' v'] o IH]; simpl.
  - intros ->%list_elem_of_singleton. by right.
  - destruct (String.eqb k' k) eqn:E.
    + apply string_eqb_true in E as ->.
      intros [->|H]%elem_of_cons; [by right|]. left. by apply elem_of_cons; right.
    + intros [->|H]%elem_of_cons; [left; apply elem_of_cons; by left|].
      destruct (IH H); [left; apply elem_of_cons; by right|by right].
Qed.

Lemma set_elem k v o e : e ∈ Obj.set k v o → e ∈ o ∨ fst e = k.
Proof.
  unfold Obj.set. destruct (String.eqb k "__proto__"); [by left|].
  apply assign_elem.
Qed.

Lemma insert_sorted_elem n e (l : list (N * (string * V))) x :
  x ∈ Obj.insert_sorted n e l ↔ x = (n, e) ∨ x ∈ l.
Proof.
  induction l as [|[m e'] l IH]; simpl.
  - rewrite list_elem_of_singleton. split; [by left|].
    by intros [?|?%elem_of_nil].
  - destruct (n <=? m)%N.
    + by rewrite elem_of_cons.
    + rewrite !elem_of_cons, IH. tauto.
Qed.

Lemma index_entries_elem o e :
  e ∈ snd <$> Obj.index_entries o ↔ e ∈ o ∧ is_Some (Obj.array_index (fst e)).
Proof.
  induction o as [|[k v] o IH]; simpl.
  - split; [by intros ?%elem_of_nil|by intros [?%elem_of_nil _]].
  - destruct (Obj.array_index k) as [n|] eqn:E.
    + rewrite list_elem_of_fmap. split.
      * intros ([m x] & -> & [[= -> ->]|Hx]%insert_sorted_elem); simpl.
        { split; [apply elem_of_cons; by left|by rewrite E]. }
        assert (x ∈ snd <$> Obj.index_entries o) as Hin.
        { apply list_elem_of_fmap. by exists (m, x). }
        apply IH in Hin as [? ?]. split; [apply elem_of_cons; by right|done].
      * intros [[->|Hin]%elem_of_cons Hs].
        { exists (n, (k, v)). split; [done|]. apply insert_sorted_elem. by left. }
        assert (e ∈ snd <$> Obj.index_entries o) as Hx by by apply IH.
        apply list_elem_of_fmap in Hx as (y & -> & Hy).
        exists y. split; [done|]. apply insert_sorted_elem. by right.
    + rewrite IH, elem_of_cons. split; [tauto|].
      intros [[->|?] Hs]; [|done]. simpl in Hs. rewrite E in Hs.
      by destruct Hs.
Qed.

(** Enumeration reorders the own properties and loses none. *)
Lemma entries_elem o e : e ∈ Obj.entries o ↔ e ∈ o.
Proof.
  unfold Obj.entries, Obj.named_entries.
  rewrite elem_of_app, index_entries_elem, list_elem_of_In, filter_In,
    <- list_elem_of_In.
  destruct (Obj.array_index (fst e)) as [n|].
  - split; [intros [[? _]|[_ ?]]; done|]. intros ?. left. split; [done|by eexists].
  - split; [intros [[_ []]|[? _]]; done|]. intros ?. by right.
Qed.

End ObjFacts.

(** ** Usage examples *)

Section UsageFacts.

Implicit Types (s t p : string) (parts : list string).

Lemma join_cons_cons sep a b parts :
  Str.join sep (a :: b :: parts) = a +:+ sep +:+ Str.join sep (b :: parts).
Proof. reflexivity. Qed.

Lemma join_snoc sep parts last :
  parts ≠ [] →
  Str.join sep (parts ++ [last]) = Str.join sep parts +:+ sep +:+ last.
Proof.
  induction parts as [|a parts IH]; [done|]. intros _.
  destruct parts as [|b parts]; [done|].
  change ((a :: b :: parts) ++ [last]) with (a :: b :: (parts ++ [last])).
  rewrite !join_cons_cons. change (b :: parts ++ [last]) with ((b :: parts) ++ [last]).
  rewrite IH by done. by rewrite !app_assoc.
Qed.

Lemma join_truthy sep a parts :
  a ≠ "" → Str.truthy (Str.join sep (a :: parts)) = true.
Proof.
  intros Ha. destruct a as [|c a]; [done|]. by destruct parts.
Qed.

Lemma includes_refl s : Str.includes s s = true.
Proof. apply includes_true. exists "", "". by rewrite app_nil_r. Qed.

Lemma includes_join_part sep parts part :
  part ∈ parts → Str.includes (Str.join sep parts) part = true.
Proof.
  induction parts as [|a parts IH]; [by intros ?%elem_of_nil|].
  destruct parts as [|b parts].
  - intros ->%list_elem_of_singleton. apply includes_refl.
  - rewrite join_cons_cons. intros [->|H]%elem_of_cons.
    + apply includes_true. by exists "", (sep +:+ Str.join sep (b :: parts)).
    + apply IH in H. apply includes_true in H as (x & y & ->).
      apply includes_true. exists (a +:+ sep +:+ x), y. by rewrite !app_assoc.
Qed.

Lemma every_impl (f g : ascii → bool) s :
  (∀ c, f c = true → g c = true) → Str.every f s = true → Str.every g s = true.
Proof.
  intros Hfg. induction s as [|c s IH]; [done|]. simpl.
  intros [Hc Hs]%andb_true_iff. by rewrite (Hfg c Hc), IH.
Qed.

Lemma startsWith_before_sep x y c p :
  Str.every (Char.other_than c) p = true →
  Str.startsWith (x +:+ String c y) p = true → Str.startsWith x p = true.
Proof.
  rewrite !startsWith_true. revert x.
  induction p as [|a p IH]; intros x Hp [r Hr]; [by exists x|].
  simpl in Hp. apply andb_true_iff in Hp as [Ha Hp].
  destruct x as [|b x].
  - rewrite app_nil_l, app_cons in Hr. injection Hr as <- _.
    unfold Char.other_than in Ha. by rewrite Ascii.eqb_refl in Ha.
  - rewrite !app_cons in Hr. injection Hr as -> Hr.
    destruct (IH x Hp (ex_intro _ r Hr)) as [r' ->]. exists r'. by rewrite app_cons.
Qed.

(** An occurrence of [p] does not span a separator [p] does not hold. *)
Lemma includes_app_sep x y c p :
  Str.every (Char.other_than c) p = true →
  Str.includes (x +:+ String c y) p = true →
  Str.includes x p = true ∨ Str.includes y p = true.
Proof.
  intros Hp. induction x as [|b x IH].
  - rewrite app_nil_l. simpl. intros [H|H]%orb_true_iff; [|by right].
    left. simpl. rewrite orb_false_r.
    by apply (startsWith_before_sep "" y c).
  - rewrite app_cons. simpl. intros [H|H]%orb_true_iff.
    + left. apply orb_true_iff. left.
      by apply (startsWith_before_sep (String b x) y c).
    + destruct (IH H) as [IH'|IH']; [|by right].
      left. apply orb_true_iff. by right.
Qed.

Lemma includes_join_sep c parts p :
  Str.every (Char.other_than c) p = true → parts ≠ [] →
  Str.includes (Str.join (String c "") parts) p = true →
  ∃ part, part ∈ parts ∧ Str.includes part p = true.
Proof.
  intros Hp. induction parts as [|a parts IH]; [done|]. intros _.
  destruct parts as [|b parts].
  - intros H. exists a. split; [apply elem_of_cons; by left|done].
  - rewrite join_cons_cons. intros [H|H]%(includes_app_sep _ _ _ _ Hp).
    + exists a. split; [apply elem_of_cons; by left|done].
    + destruct (IH ltac:(done) H) as (part & Hin & Hpart).
      exists part. split; [apply elem_of_cons; by right|done].
Qed.

Lemma word_has_no_space p :
  word_only p = true → Str.every (Char.other_than " ") p = true.
Proof.
  apply every_impl. intros c Hc. destruct (Ascii.eqb_spec c " ") as [->|Hne].
  - discriminate Hc.
  - unfold Char.other_than. by apply negb_true_iff, Ascii.eqb_neq.
Qed.

(** The usage example is the tag name, the fragments of the required
    properties and the closing mark, one space between any two. *)
Lemma generateUsageExample_join componentName (props : Obj.t PropConfig) :
  generateUsageExample componentName props
  = Str.join " "
      (("<" +:+ componentName)
       :: (usage_fragment <$>
             List.filter (λ e, negb (optional (snd e))) (Obj.entries props))
       ++ ["/>"]).
Proof.
  unfold generateUsageExample.
  destruct (usage_fragment <$> _) as [|f frags] eqn:E.
  - change (Str.join " " (("<" +:+ componentName) :: [] ++ ["/>"]))
      with (("<" +:+ componentName) +:+ " />").
    by rewrite app_assoc.
  - assert (f ≠ "") as Hf.
    { destruct (List.filter _ _) as [|[n cfg] l]; [done|].
      injection E as <- _. unfold usage_fragment. simpl. by destruct n. }
    rewrite (join_truthy _ _ _ Hf).
    change (("<" +:+ componentName) :: (f :: frags) ++ ["/>"])
      with (("<" +:+ componentName) :: f :: (frags ++ ["/>"])).
    rewrite join_cons_cons.
    change (f :: frags ++ ["/>"]) with ((f :: frags) ++ ["/>"]).
    rewrite join_snoc by done. by rewrite !app_assoc.
Qed.

Lemma word_not_in_closing p :
  word_only p = true → Str.includes "/>" p = true → p = "".
Proof.
  destruct p as [|a p]; [done|]. simpl. intros [Ha _]%andb_true_iff.
  unfold Str.startsWith. simpl.
  destruct (Ascii.eqb_spec a "/") as [->|_]; [discriminate Ha|].
  destruct (Ascii.eqb_spec a ">") as [->|_]; [discriminate Ha|]. done.
Qed.

Lemma word_in_opening componentName p :
  word_only p = true → Str.includes ("<" +:+ componentName) p = true →
  Str.includes componentName p = true.
Proof.
  intros Hp. rewrite app_cons, app_nil_l. simpl.
  intros [H|H]%orb_true_iff; [|done].
  destruct p as [|a p]; [by destruct componentName|].
  simpl in Hp. apply andb_true_iff in Hp as [Ha _].
  unfold Str.startsWith in H. simpl in H.
  destruct (Ascii.eqb_spec a "<") as [->|_]; [discriminate Ha|done].
Qed.

End UsageFacts.

(** ** The parser *)

Section ParserFacts.

Implicit Types (w : world) (acc : Obj.t PropConfig) (c : ComponentDefinition).

Lemma add_prop_keys acc line :
  (∀ e, e ∈ acc → word_only (fst e) = true) →
  ∀ e, e ∈ add_prop acc line → word_only (fst e) = true.
Proof.
  intros Hacc e. unfold add_prop.
  destruct (Regex.exec prop_line_pattern line) as [m|] eqn:E; [|apply Hacc].
  destruct (prop_line_name _ _ E) as (n & -> & Hn).
  intros [H| ->]%set_elem; [by apply Hacc|done].
Qed.

Lemma fold_add_prop_keys (propLines : list string) acc :
  (∀ e, e ∈ acc → word_only (fst e) = true) →
  ∀ e, e ∈ fold_left add_prop propLines acc → word_only (fst e) = true.
Proof.
  revert acc. induction propLines as [|line propLines IH]; intros acc Hacc; [done|].
  simpl. by apply IH, add_prop_keys.
Qed.

(** The names the parser records are made of word characters. *)
Lemma parse_props_keys content e :
  e ∈ parse_props content → word_only (fst e) = true.
Proof.
  unfold parse_props. destruct (Regex.exec props_pattern content).
  - apply fold_add_prop_keys. by intros ? ?%elem_of_nil.
  - by intros ?%elem_of_nil.
Qed.

Lemma parseComponent_inv w filePath c :
  parseComponent w filePath = Return c →
  usage c = generateUsageExample (name c) (props c)
  ∧ path c = Path.relative (cwd w) filePath
  ∧ ∀ e, e ∈ props c → word_only (fst e) = true.
Proof.
  unfold parseComponent. destruct (Fs.readFile w filePath) as [content|]; simpl.
  - intros [= <-]. simpl. split; [done|]. split; [done|]. apply parse_props_keys.
  - intros [= <-]. simpl. split; [done|]. split; [done|]. by intros ? ?%elem_of_nil.
Qed.

End ParserFacts.

(** C6, as the source has it.  In the usage of a parsed record with
    properties, every required property occurs as its name followed by
    [={value}]; the usage is the opening with the component name, these
    fragments and the closing mark, joined by single spaces; and the name of
    an optional property occurs in it only inside the component name or
    inside the fragment of a required property. *)
Theorem usage_holds_required_only (w : world) (filePath : string)
    (c : ComponentDefinition) :
  parseComponent w filePath = Return c →
  props c ≠ [] →
  (∀ n cfg, (n, cfg) ∈ props c → optional cfg = false →
     Str.includes (usage c) (n +:+ "={" +:+ getExampleValue (type cfg) +:+ "}")
     = true)
  ∧ usage c
    = Str.join " "
        (("<" +:+ name c)
         :: (usage_fragment <$>
               List.filter (λ e, negb (optional (snd e))) (Obj.entries (props c)))
         ++ ["/>"])
  ∧ (∀ n cfg, (n, cfg) ∈ props c → optional cfg = true →
       Str.includes (usage c) n = true →
       Str.includes (name c) n = true
       ∨ ∃ n' cfg', (n', cfg') ∈ props c ∧ optional cfg' = false
                    ∧ Str.includes
                        (n' +:+ "={" +:+ getExampleValue (type cfg') +:+ "}") n
                      = true).
Proof.
  intros (Hu & _ & Hwords)%parseComponent_inv _.
  rewrite generateUsageExample_join in Hu. rewrite Hu.
  split; [|split; [done|]].
  - intros n cfg Hin Hreq. apply includes_join_part.
    apply elem_of_cons. right. apply elem_of_app. left.
    apply list_elem_of_fmap. exists (n, cfg). split; [done|].
    apply list_elem_of_In, filter_In. split.
    + by apply list_elem_of_In, entries_elem.
    + simpl. by rewrite Hreq.
  - intros n cfg Hin _ Hocc. pose proof (Hwords _ Hin) as Hn. simpl in Hn.
    apply (includes_join_sep " "%char) in Hocc as (part & Hpart & Hp);
      [|by apply word_has_no_space|done].
    apply elem_of_cons in Hpart as [->|Hpart].
    { left. by apply word_in_opening. }
    apply elem_of_app in Hpart as [Hpart| ->%list_elem_of_singleton].
    + right. apply list_elem_of_fmap in Hpart as ([n' cfg'] & -> & He).
      apply list_elem_of_In, filter_In in He as [He Hreq].
      apply (proj2 (list_elem_of_In _ _)) in He.
      apply (proj1 (entries_elem _ _)) in He. simpl in Hreq.
      exists n', cfg'. split; [done|]. split; [by apply negb_true_iff|done].
    + left. rewrite (word_not_in_closing _ Hn Hp). by destruct (name c).
Qed.

Lemma usage_holds_required_only_witness :
  let c := {| name := "Button"; path := "src/components/ui/Button.tsx";
              props := [("label", {| type := "string"; optional := false |});
                        ("on", {| type := "boolean"; optional := true |})];
              usage := "<Button label={" +:+ Str.dquote +:+ "example"
                         +:+ Str.dquote +:+ "} />";
              dependencies := Some [] |} in
  (∀ n cfg, (n, cfg) ∈ props c → optional cfg = false →
     Str.includes (usage c) (n +:+ "={" +:+ getExampleValue (type cfg) +:+ "}")
     = true)
  ∧ usage c
    = Str.join " "
        (("<" +:+ name c)
         :: (usage_fragment <$>
               List.filter (λ e, negb (optional (snd e))) (Obj.entries (props c)))
         ++ ["/>"])
  ∧ (∀ n cfg, (n, cfg) ∈ props c → optional cfg = true →
       Str.includes (usage c) n = true →
       Str.includes (name c) n = true
       ∨ ∃ n' cfg', (n', cfg') ∈ props c ∧ optional cfg' = false
                    ∧ Str.includes
                        (n' +:+ "={" +:+ getExampleValue (type cfg') +:+ "}") n
                      = true).
Proof.
  apply (usage_holds_required_only project_with_button
           "/app/src/components/ui/Button.tsx").
  - vm_compute. reflexivity.
  - discriminate.
Defined.

(** C6 as stated fails: the record parsed from [Button.tsx] has the
    optional property [on], and its usage holds [on] inside [Button]. *)
Lemma usage_holds_optional_name :
  let c := {| name := "Button"; path := "src/components/ui/Button.tsx";
              props := [("label", {| type := "string"; optional := false |});
                        ("on", {| type := "boolean"; optional := true |})];
              usage := "<Button label={" +:+ Str.dquote +:+ "example"
                         +:+ Str.dquote +:+ "} />";
              dependencies := Some [] |} in
  parseComponent project_with_button "/app/src/components/ui/Button.tsx"
  = Return c
  ∧ props c ≠ []
  ∧ Obj.entries (props c) !! 1
    = Some ("on", {| type := "boolean"; optional := true |})
  ∧ Str.includes (usage c) "on" = true.
Proof.
  cbv zeta. split; [vm_compute; reflexivity|]. split; [discriminate|].
  split; reflexivity.
Qed.

(** C2, as the source has it.  Properties are read one per line of the
    interface body.  A file whose text is the one-line interface
    [interface FooProps { bar: string; baz?: number; }] parses to the single
    property [bar]; with [bar] and [baz] on lines of their own it parses to
    both.  In either case the usage is the tag named after the file (base
    name without extension: [Foo] for [Foo.tsx]) with the fragment
    [bar={...}] whose value is the quoted placeholder [example]. *)
Theorem parse_foo (w : world) (filePath : string) :
  let componentName := Path.basename filePath (Path.extname filePath) in
  let bar := ("bar", {| type := "string"; optional := false |}) in
  let baz := ("baz", {| type := "number"; optional := true |}) in
  let usage :=
    "<" +:+ componentName +:+ " bar={" +:+ Str.dquote +:+ "example"
        +:+ Str.dquote +:+ "} />" in
  (Fs.readFile w filePath = Some foo_one_line →
   parseComponent w filePath
   = Return {| name := componentName;
               path := Path.relative (cwd w) filePath;
               props := [bar];
               usage := usage;
               dependencies := Some [] |})
  ∧ (Fs.readFile w filePath = Some foo_lines →
     parseComponent w filePath
     = Return {| name := componentName;
                 path := Path.relative (cwd w) filePath;
                 props := [bar; baz];
                 usage := usage;
                 dependencies := Some [] |}).
Proof.
  cbv zeta. unfold parseComponent. split; intros ->; simpl; by do 2 f_equal.
Qed.

Lemma parse_foo_witness :
  parseComponent (project [Dirent "Foo.tsx" (File (Some foo_one_line))])
    "/app/src/components/Foo.tsx"
  = Return {| name := "Foo";
              path := "src/components/Foo.tsx";
              props := [("bar", {| type := "string"; optional := false |})];
              usage := "<Foo bar={" +:+ Str.dquote +:+ "example"
                         +:+ Str.dquote +:+ "} />";
              dependencies := Some [] |}
  ∧ parseComponent (project [Dirent "Foo.tsx" (File (Some foo_lines))])
      "/app/src/components/Foo.tsx"
    = Return {| name := "Foo";
                path := "src/components/Foo.tsx";
                props := [("bar", {| type := "string"; optional := false |});
                          ("baz", {| type := "number"; optional := true |})];
                usage := "<Foo bar={" +:+ Str.dquote +:+ "example"
                           +:+ Str.dquote +:+ "} />";
                dependencies := Some [] |}.
Proof.
  split.
  - apply (proj1 (parse_foo (project [Dirent "Foo.tsx" (File (Some foo_one_line))])
                    "/app/src/components/Foo.tsx")).
    reflexivity.
  - apply (proj2 (parse_foo (project [Dirent "Foo.tsx" (File (Some foo_lines))])
                    "/app/src/components/Foo.tsx")).
    reflexivity.
Defined.

(** C2 as stated fails: [Foo.tsx] with exactly the text of the scenario
    parses to a record without [baz], and its usage gives the value of
    [bar] in braces. *)
Lemma parse_foo_one_line_differs :
  let w := project [Dirent "Foo.tsx" (File (Some foo_one_line))] in
  let c := {| name := "Foo"; path := "src/components/Foo.tsx";
              props := [("bar", {| type := "string"; optional := false |})];
              usage := "<Foo bar={" +:+ Str.dquote +:+ "example"
                         +:+ Str.dquote +:+ "} />";
              dependencies := Some [] |} in
  Fs.readFile w "/app/src/components/Foo.tsx" = Some foo_one_line
  ∧ Str.includes foo_one_line
      "interface FooProps { bar: string; baz?: number; }" = true
  ∧ parseComponent w "/app/src/components/Foo.tsx" = Return c
  ∧ props c ≠ [("bar", {| type := "string"; optional := false |});
               ("baz", {| type := "number"; optional := true |})]
  ∧ usage c ≠ "<Foo bar=" +:+ Str.dquote +:+ "example" +:+ Str.dquote +:+ " />".
Proof.
  cbv zeta. split; [reflexivity|]. split; [reflexivity|].
  split; [vm_compute; reflexivity|]. split; [discriminate|].
  vm_compute. discriminate.
Qed.

(** ** Paths of the cached records *)

Section PathFacts.

Implicit Types (s t a b : string) (c : ascii).

Lemma app_last_inj a b c d :
  a +:+ String c "" = b +:+ String d "" → a = b ∧ c = d.
Proof.
  revert b. induction a as [|x a IH]; intros [|y b]; rewrite ?app_cons, ?app_nil_l.
  - by intros [= ->].
  - intros [= -> H]. by destruct b.
  - intros [= -> H]. by destruct a.
  - intros [= -> H]. by destruct (IH _ H) as [-> ->].
Qed.

Lemma endsWith_last s c d :
  c ≠ d → Str.endsWith (s +:+ String c "") (String d "") = false.
Proof.
  intros Hne. apply not_true_iff_false. intros [a H]%endsWith_true.
  by apply app_last_inj in H as [_ ?].
Qed.

Lemma with_sep_last s c :
  c ≠ "/"%char → Path.with_sep (s +:+ String c "") = s +:+ String c "" +:+ "/".
Proof.
  intros Hne. unfold Path.with_sep. rewrite (endsWith_last _ _ _ Hne).
  by rewrite app_assoc.
Qed.

Lemma with_sep_app s : ∃ t, Path.with_sep s = s +:+ t.
Proof.
  unfold Path.with_sep. destruct (Str.endsWith s "/").
  - exists "". by rewrite app_nil_r.
  - by exists "/".
Qed.

Lemma componentsDir_sep (w : world) :
  Path.with_sep (componentsDir w) = Path.with_sep (cwd w) +:+ "src/components/".
Proof.
  unfold componentsDir, Path.join.
  change "src" with ("sr" +:+ "c"). rewrite <- app_assoc.
  rewrite with_sep_last by done. rewrite !app_assoc.
  change ("sr" +:+ "c" +:+ "/" +:+ "components") with ("src/component" +:+ "s").
  rewrite <- app_assoc. rewrite with_sep_last by done.
  by rewrite !app_assoc.
Qed.

Lemma ends_in_ts_app s t : ends_in_ts t = true → ends_in_ts (s +:+ t) = true.
Proof.
  unfold ends_in_ts. intros [H|H]%orb_true_iff; apply orb_true_iff;
    [left|right]; by apply endsWith_app.
Qed.

(** Induction on a file tree: a directory that can be listed has the
    property when the targets of its entries have it. *)
Lemma node_tree_ind (P : node → Prop) :
  (∀ content, P (File content)) →
  P (Directory None) →
  (∀ entries, Forall (λ e, P (dirent_target e)) entries →
              P (Directory (Some entries))) →
  ∀ n, P n.
Proof.
  intros Hfile Hnone Hdir.
  exact (fix IH (n : node) : P n :=
    match n with
    | File content => Hfile content
    | Directory None => Hnone
    | Directory (Some entries) =>
        Hdir entries
          ((fix each (l : list dirent) : Forall (λ e, P (dirent_target e)) l :=
              match l with
              | [] => Forall_nil_2 _
              | Dirent entry_name target :: l' =>
                  Forall_cons_2 _ (Dirent entry_name target) l' (IH target) (each l')
              end) entries)
    end).
Qed.

(** What one entry adds to the array when its turn comes and the push
    goes through. *)
Lemma scan_loop_app (scan : string → node → list string) (w : world)
    (dir : string) (entries : list dirent) (files : list string) :
  ∃ more, scan_loop w scan dir entries files = files ++ more
          ∧ ∀ f, f ∈ more →
                 ∃ entry_name target,
                   Dirent entry_name target ∈ entries
                   ∧ (f ∈ scan (Path.join dir entry_name) target
                      ∨ (f = Path.join dir entry_name
                         ∧ ends_in_ts entry_name = true)).
Proof.
  revert files. induction entries as [|[entry_name target] entries IH];
    intros files; simpl.
  - exists []. split; [by rewrite List.app_nil_r|]. by intros f ?%elem_of_nil.
  - assert (∀ files' added,
              files' = files ++ added →
              (∀ f, f ∈ added →
                    f ∈ scan (Path.join dir entry_name) target
                    ∨ (f = Path.join dir entry_name
                       ∧ ends_in_ts entry_name = true)) →
              ∃ more, scan_loop w scan dir entries files' = files ++ more
                      ∧ ∀ f, f ∈ more →
                             ∃ entry_name0 target0,
                               Dirent entry_name0 target0
                               ∈ Dirent entry_name target :: entries
                               ∧ (f ∈ scan (Path.join dir entry_name0) target0
                                  ∨ (f = Path.join dir entry_name0
                                     ∧ ends_in_ts entry_name0 = true))) as Hnext.
    { intros files' added -> Hadded.
      destruct (IH (files ++ added)) as (more & -> & Hmore).
      exists (added ++ more). split; [by rewrite List.app_assoc|].
      intros f [Hf|Hf]%elem_of_app.
      - exists entry_name, target. split; [by left|by apply Hadded].
      - destruct (Hmore f Hf) as (n0 & t0 & Hin & H0).
        exists n0, t0. split; [by right|done]. }
    destruct (Fs.isDirectory (Dirent entry_name target)).
    + unfold push_all. destruct (_ <=? _)%N.
      * apply (Hnext _ (scan (Path.join dir entry_name) target)); [done|].
        intros f Hf. by left.
      * exists []. split; [by rewrite List.app_nil_r|]. by intros f ?%elem_of_nil.
    + destruct (Str.endsWith entry_name ".tsx" || Str.endsWith entry_name ".ts")
        eqn:E.
      * apply (Hnext _ [Path.join dir entry_name]); [done|].
        intros f ->%list_elem_of_singleton. by right.
      * apply (Hnext _ []); [by rewrite List.app_nil_r|].
        by intros f ?%elem_of_nil.
Qed.

(** The scanner returns paths below the directory it is given, each ending
    in one of the two extensions. *)
Lemma scan_node_paths (w : world) (n : node) :
  ∀ dir f, f ∈ scan_node w dir n →
           ∃ rest, f = Path.with_sep dir +:+ rest ∧ ends_in_ts rest = true.
Proof.
  induction n as [content| |entries IH] using node_tree_ind; intros dir f;
    [by intros ?%elem_of_nil..|].
  simpl. destruct (scan_loop_app (scan_node w) w dir entries [])
    as (more & -> & Hmore).
  simpl. intros (entry_name & target & Hin & Hf)%Hmore.
  rewrite Forall_forall in IH. specialize (IH _ Hin). simpl in IH.
  destruct Hf as [Hf|[-> Hf]].
  - apply IH in Hf as (rest & -> & Hrest). unfold Path.join.
    destruct (with_sep_app (Path.with_sep dir +:+ entry_name)) as [t ->].
    exists (entry_name +:+ t +:+ rest). split; [by rewrite !app_assoc|].
    rewrite <- app_assoc. by apply ends_in_ts_app.
  - by exists entry_name.
Qed.

Lemma loaded_paths_ok (w : world) (this : ComponentMCPServer) :
  cache_paths_ok (loadComponents w this).
Proof.
  intros c Hc.
  apply (load_scanned w this _ eq_refl) in Hc as (f & Hf & Hparse).
  apply parseComponent_inv in Hparse as (_ & -> & _).
  destruct (Fs.resolve w (componentsDir w)) as [n|]; [|by apply elem_of_nil in Hf].
  apply scan_node_paths in Hf as (rest & -> & Hrest).
  rewrite componentsDir_sep, app_assoc. unfold Path.relative.
  rewrite strip_app. simpl. unfold path_ok. apply andb_true_iff. split.
  - apply startsWith_true. exists ("components/" +:+ rest). by rewrite <- !app_assoc.
  - by apply ends_in_ts_app.
Qed.

Lemma ensure_loaded_paths_ok (w : world) (this : ComponentMCPServer) :
  cache_paths_ok this → cache_paths_ok (ensure_loaded w this).
Proof.
  intros H. unfold ensure_loaded.
  destruct (Nat.eqb _ _); [apply loaded_paths_ok|done].
Qed.

Lemma reachable_paths_ok (this : ComponentMCPServer) :
  reachable this → cache_paths_ok this.
Proof.
  induction 1 as [|w this a _ IH].
  - by intros c ?%elem_of_nil.
  - destruct (serve_state w this a) as [-> | ->]; [done|].
    by apply ensure_loaded_paths_ok.
Qed.

End PathFacts.

(** ** Segments and case *)

Section SegmentFacts.

Implicit Types (s a b p ext : string) (c : ascii).

Lemma split_nonempty c s : ∃ h t, Str.split c s = h :: t.
Proof.
  induction s as [|x s (h & t & IH)]; simpl; [by eexists _, _|].
  destruct (Ascii.eqb x c); [by eexists _, _|]. rewrite IH. by eexists _, _.
Qed.

Lemma split_no_sep c s :
  Str.every (Char.other_than c) s = true → Str.split c s = [s].
Proof.
  induction s as [|x s IH]; [done|]. simpl. intros [Hx Hs]%andb_true_iff.
  unfold Char.other_than in Hx. apply negb_true_iff in Hx. rewrite Hx.
  by rewrite (IH Hs).
Qed.

(** Splitting at a separator splits both sides. *)
Lemma split_app_sep c a b :
  Str.split c (a +:+ String c b) = Str.split c a ++ Str.split c b.
Proof.
  induction a as [|x a IH].
  - rewrite app_nil_l. simpl. by rewrite Ascii.eqb_refl.
  - rewrite app_cons. simpl. rewrite IH.
    destruct (Ascii.eqb x c); [done|].
    by destruct (split_nonempty c a) as (h & t & ->).
Qed.











End SegmentFacts.



(** * Further properties of the front end *)

Section FrontEndFacts.

Implicit Types (transports : gmap string StreamableHTTPServerTransport)
  (req : Request) (h : Handling) (e : event) (sid : string).

Lemma get_own transports sid t :
  transports !! sid = Some t → Dict.get transports sid = Dict.Own t.
Proof. intros H. unfold Dict.get. by rewrite H. Qed.

Lemma handleRequest_other transports p h sid t :
  registered_ok transports → transports !! sid = Some t →
  (∀ t', p = Dict.Own t' → sessionId t' ≠ Some sid) →
  fst (handleRequest transports p h) !! sid = Some t.
Proof.
  intros Hok Hlive Hp. unfold handleRequest.
  destruct p as [t'| |]; simpl; [|done..]. destruct (closes h); [|done].
  unfold onclose, Dict.remove. destruct (sessionId t') as [k|] eqn:E; [|done].
  destruct (Str.truthy k); [|done]. rewrite lookup_delete_ne; [done|].
  intros ->. by apply (Hp t').
Qed.

End FrontEndFacts.

(** X1.  A POST without a usable session header and with an initialize
    body, accepted by its new transport, registers that transport under
    the identifier the generator returned; from then on a GET, POST or
    DELETE that carries the identifier is handed to that transport. *)
Theorem initialized_session_is_routed
    (transports : gmap string StreamableHTTPServerTransport)
    (req req' : Request) (h h' : Handling) (sid : string) (m : Method) :
  header_truthy (session_header req) = false →
  is_initialize req = true →
  initializes h = Some sid → closes h = false →
  sid ≠ "" → sid ≠ "__proto__" →
  session_header req' = Some sid →
  let transport := {| sessionId := Some sid |} in
  post transports req h = (<[sid:=transport]> transports, Delegated transport)
  ∧ snd (step (fst (post transports req h)) (Http m req' h'))
    = Some (Delegated transport).
Proof.
  intros Hh Hi Hs Hc Hne Hproto Hh'. cbv zeta.
  assert (post transports req h
          = (<[sid:={| sessionId := Some sid |}]> transports,
             Delegated {| sessionId := Some sid |})) as ->.
  { unfold post. rewrite Hh, Hi. simpl.
    destruct h as [i c|e]; [|done]. simpl in Hs, Hc. subst i c.
    unfold handleRequest_new, connect, initializes, closes.
    unfold onsessioninitialized, Dict.set.
    apply String.eqb_neq in Hproto. by rewrite Hproto. }
  split; [done|]. cbn [fst].
  pose proof (get_own (<[sid:={| sessionId := Some sid |}]> transports) sid _
                (lookup_insert_eq _ _ _)) as Hget.
  apply truthy_true in Hne.
  destruct m; simpl; unfold post, handleSessionRequest;
    rewrite Hh'; simpl; rewrite Hne, Hget; done.
Qed.

Lemma initialized_session_is_routed_witness :
  let transport := {| sessionId := Some sample_uuid |} in
  post ∅ initialize_request (Handled (Some sample_uuid) false)
  = (<[sample_uuid:=transport]> ∅, Delegated transport)
  ∧ snd (step (fst (post ∅ initialize_request
                      (Handled (Some sample_uuid) false)))
           (Http POST (request_with sample_uuid) quiet))
    = Some (Delegated transport).
Proof.
  apply (initialized_session_is_routed ∅ initialize_request
           (request_with sample_uuid)
           (Handled (Some sample_uuid) false) quiet
           sample_uuid POST); try reflexivity; discriminate.
Defined.

(** X2.  In every state the session map reaches from the start of the
    server, each transport is stored under its own session identifier, and
    every key of the map is an identifier the generator returned during
    the events so far. *)
Theorem session_map_invariant (evs : list event) (sid : string)
    (t : StreamableHTTPServerTransport) :
  run ∅ evs !! sid = Some t →
  sessionId t = Some sid ∧ sid ∈ evs ≫= drawn.
Proof.
  intros H. split.
  - apply (run_registered_ok evs ∅); [|done].
    intros k t' Hk. by rewrite lookup_empty in Hk.
  - apply run_lookup in H as [H|H]; [by rewrite lookup_empty in H|done].
Qed.

Lemma session_map_invariant_witness :
  sessionId {| sessionId := Some sample_uuid |} = Some sample_uuid
  ∧ sample_uuid
    ∈ [Http POST initialize_request
         (Handled (Some sample_uuid) false)] ≫= drawn.
Proof.
  apply (session_map_invariant
           [Http POST initialize_request
              (Handled (Some sample_uuid) false)]).
  reflexivity.
Defined.

(** X3.  Sessions do not interfere: a request that carries a non-empty
    session identifier leaves every session registered under another
    identifier in place, with its transport, also when the request closes
    its own session. *)
Theorem other_sessions_untouched
    (transports : gmap string StreamableHTTPServerTransport)
    (m : Method) (req : Request) (h : Handling) (sid other : string)
    (t : StreamableHTTPServerTransport) :
  registered_ok transports →
  session_header req = Some sid → sid ≠ "" → sid ≠ other →
  transports !! other = Some t →
  fst (step transports (Http m req h)) !! other = Some t.
Proof.
  intros Hok Hh Hne Hdiff Hlive. apply truthy_true in Hne.
  assert (fst (handleRequest transports (lookup_session transports (Some sid)) h)
          !! other = Some t) as Hroute.
  { apply handleRequest_other; [done..|]. intros t' Hp. simpl in Hp.
    unfold Dict.get in Hp. destruct (transports !! sid) as [t0|] eqn:E.
    - injection Hp as ->. rewrite (Hok _ _ E). congruence.
    - by destruct (existsb _ _). }
  destruct m; simpl; unfold post, handleSessionRequest; rewrite Hh; simpl;
    rewrite Hne; simpl;
    destruct (Dict.truthy (Dict.get transports sid)); simpl; done.
Qed.

Lemma other_sessions_untouched_witness :
  fst (step (<["b":={| sessionId := Some "b" |}]>
               (<["a":={| sessionId := Some "a" |}]> ∅))
         (Http DELETE (request_with "a") (Handled None true)))
  !! "b" = Some {| sessionId := Some "b" |}.
Proof.
  apply (other_sessions_untouched _ DELETE (request_with "a") _ "a" "b");
    try reflexivity; try discriminate.
  intros k t. rewrite !lookup_insert.
  repeat case_decide; subst; intros [= <-] || intros [=]; reflexivity.
Defined.

(** X4.  A request that is answered by the server itself (status 400) or
    that fails leaves the session map as it was; GET and DELETE never add a
    session. *)
Theorem rejected_request_changes_nothing
    (transports : gmap string StreamableHTTPServerTransport)
    (m : Method) (req : Request) (h : Handling) :
  (∀ transports' status body,
      step transports (Http m req h) = (transports', Some (Reply status body)) →
      transports' = transports)
  ∧ (∀ transports' e,
      step transports (Http m req h) = (transports', Some (Uncaught e)) →
      transports' = transports)
  ∧ (m ≠ POST → ∀ sid, transports !! sid = None →
       fst (step transports (Http m req h)) !! sid = None).
Proof.
  assert (∀ p, (∀ t, snd (handleRequest transports p h) ≠ Delegated t) →
               fst (handleRequest transports p h) = transports) as Hroute.
  { intros p. unfold handleRequest.
    destruct p as [t| |]; simpl; intros Hr; [by destruct (Hr t)|done..]. }
  assert ((∀ t, snd (handleRequest_new transports h) ≠ Delegated t) →
          fst (handleRequest_new transports h) = transports) as Hnew.
  { unfold handleRequest_new. simpl. intros Hr.
    by destruct (Hr {| sessionId := initializes h |}). }
  assert (∀ transports' r,
            step transports (Http m req h) = (transports', Some r) →
            (∀ t, r ≠ Delegated t) → transports' = transports) as Hstep.
  { intros transports' r Hs Hr.
    destruct m; simpl in Hs; unfold post, handleSessionRequest, prod_map in Hs.
    - destruct (_ || _); simpl in Hs; [by injection Hs as <- _|].
      injection Hs as <- <-. by apply Hroute.
    - destruct (_ && _); simpl in Hs.
      { injection Hs as <- <-. by apply Hroute. }
      destruct (_ && _); simpl in Hs; [|by injection Hs as <- _].
      destruct (connect h); [|by injection Hs as <- _].
      injection Hs as <- <-. by apply Hnew.
    - destruct (_ || _); simpl in Hs; [by injection Hs as <- _|].
      injection Hs as <- <-. by apply Hroute. }
  split; [|split].
  - intros transports' status body Hs. by apply (Hstep _ _ Hs).
  - intros transports' e Hs. by apply (Hstep _ _ Hs).
  - intros Hm sid Hnone.
    destruct (fst (step transports (Http m req h)) !! sid) as [t|] eqn:E; [|done].
    assert (fst (handleSessionRequest transports req h) !! sid = Some t) as E'.
    { by destruct m. }
    unfold handleSessionRequest in E'.
    destruct (_ || _); [simpl in E'; congruence|].
    apply handleRequest_lookup in E'. congruence.
Qed.

Lemma rejected_request_changes_nothing_witness :
  fst (step ∅ (Http GET (request_with sample_uuid) quiet)) !! sample_uuid = None.
Proof.
  apply (proj2 (proj2 (rejected_request_changes_nothing ∅ GET
                         (request_with sample_uuid) quiet)));
    [discriminate|reflexivity].
Defined.

(** * Further properties of the scanner and the loader *)

Section ScanFacts.

Implicit Types (w : world) (dir : string) (entries : list dirent).

Lemma scanForComponents_readdir w dir entries :
  Fs.readdir w dir = Some entries →
  scanForComponents w dir = Return (scan_node w dir (Directory (Some entries))).
Proof.
  unfold Fs.readdir, scanForComponents.
  destruct (Fs.resolve w dir) as [[c|[es|]]|]; try done. by intros [= ->].
Qed.

Lemma file_fits w dir e : Fs.isDirectory e = false → fits w dir e.
Proof.
  destruct e as [entry_name [content|sub]]; [|done]. intros _.
  unfold fits. simpl. lia.
Qed.

(** An entry whose sub-scan can be pushed adds what it holds, and the loop
    goes on. *)
Lemma scan_loop_step w dir e entries files :
  fits w dir e →
  scan_loop w (scan_node w) dir (e :: entries) files
  = scan_loop w (scan_node w) dir entries (files ++ found_in w dir e).
Proof.
  destruct e as [entry_name target]. unfold fits, found_in. simpl.
  intros Hfits%N.leb_le. destruct (Fs.isDirectory (Dirent entry_name target)).
  - unfold push_all. by rewrite Hfits.
  - unfold ends_in_ts. destruct (_ || _); [done|]. by rewrite List.app_nil_r.
Qed.

Lemma scan_loop_fits w dir before entries files :
  Forall (fits w dir) before →
  scan_loop w (scan_node w) dir (before ++ entries) files
  = scan_loop w (scan_node w) dir entries (files ++ (before ≫= found_in w dir)).
Proof.
  intros H. revert files. induction H as [|e before He _ IH]; intros files.
  - by rewrite List.app_nil_r.
  - change ((e :: before) ++ entries) with (e :: (before ++ entries)).
    rewrite (scan_loop_step _ _ _ _ _ He), IH, bind_cons.
    by rewrite List.app_assoc.
Qed.

(** An entry whose sub-scan cannot be pushed ends the loop. *)
Lemma scan_loop_stop w dir e entries files :
  ¬ fits w dir e →
  scan_loop w (scan_node w) dir (e :: entries) files = files.
Proof.
  intros Hover. destruct (Fs.isDirectory e) eqn:Hd;
    [|by destruct Hover; apply file_fits].
  destruct e as [entry_name target]. simpl. rewrite Hd.
  unfold push_all. destruct (_ <=? _)%N eqn:E; [|done].
  destruct Hover. by apply N.leb_le.
Qed.

Lemma scan_loop_keeps w dir entries files f :
  f ∈ files → f ∈ scan_loop w (scan_node w) dir entries files.
Proof.
  destruct (scan_loop_app (scan_node w) w dir entries files) as (more & -> & _).
  intros H. apply elem_of_app. by left.
Qed.

Lemma with_sep_ends dir : ∃ d, Path.with_sep dir = d +:+ "/".
Proof.
  unfold Path.with_sep. destruct (Str.endsWith dir "/") eqn:E.
  - by apply endsWith_true in E.
  - by exists dir.
Qed.

Lemma every_app p (a b : string) :
  Str.every p (a +:+ b) = Str.every p a && Str.every p b.
Proof.
  induction a as [|c a IH]; [done|]. rewrite app_cons. simpl.
  by rewrite IH, andb_assoc.
Qed.

Lemma last_segment_join dir (entry_name : string) :
  Str.every (Char.other_than Char.slash) entry_name = true →
  Path.last_segment (Path.join dir entry_name) = entry_name.
Proof.
  intros Hn. unfold Path.last_segment, Path.join.
  destruct (with_sep_ends dir) as [d ->]. rewrite app_assoc, sep_app.
  change "/"%char with Char.slash.
  rewrite split_app_sep, (split_no_sep _ _ Hn). by rewrite last_snoc.
Qed.

Lemma last_dot_app (stem ext : string) :
  Path.last_dot ext = Some 0 →
  Path.last_dot (stem +:+ ext) = Some (String.length stem).
Proof.
  intros He. induction stem as [|c stem IH]; [done|].
  rewrite app_cons. simpl. by rewrite IH.
Qed.

Lemma drop_app_length (a b : string) : Path.drop (String.length a) (a +:+ b) = b.
Proof. induction a as [|c a IH]; [by destruct b|]. by rewrite app_cons. Qed.

(** The component name of a scanned file is its name without the final
    extension. *)
Lemma componentName_stem dir (stem ext : string) :
  ext = ".tsx" ∨ ext = ".ts" → stem ≠ "" →
  Str.every (Char.other_than Char.slash) stem = true →
  Path.basename (Path.join dir (stem +:+ ext))
    (Path.extname (Path.join dir (stem +:+ ext))) = stem.
Proof.
  intros Hext Hne Hstem.
  assert (Str.every (Char.other_than Char.slash) ext = true
          ∧ Path.last_dot ext = Some 0 ∧ Str.truthy ext = true
          ∧ 3 ≤ String.length ext) as (Hes & Hdot & Ht & Hlen).
  { destruct Hext as [-> | ->]; repeat split; simpl; lia. }
  assert (Path.extname (Path.join dir (stem +:+ ext)) = ext) as ->.
  { unfold Path.extname. rewrite last_segment_join by by rewrite every_app, Hstem.
    rewrite (last_dot_app _ _ Hdot). destruct stem as [|c stem]; [done|].
    cbn [String.length].
    destruct (String.eqb_spec (String c stem +:+ ext) "..") as [E|_].
    - apply (f_equal String.length) in E. rewrite app_length in E. simpl in E. lia.
    - apply (drop_app_length (String c stem)). }
  unfold Path.basename. rewrite last_segment_join by by rewrite every_app, Hstem.
  rewrite Ht. simpl.
  assert (Str.endsWith (stem +:+ ext) ext = true) as -> by (apply endsWith_true; eauto).
  destruct (String.eqb_spec (stem +:+ ext) ext) as [E|_]; simpl.
  - apply (f_equal String.length) in E. rewrite app_length in E.
    destruct stem; [done|simpl in E; lia].
  - apply take_app_length.
Qed.

Lemma parseComponent_name w filePath c :
  parseComponent w filePath = Return c →
  name c = Path.basename filePath (Path.extname filePath).
Proof.
  unfold parseComponent. destruct (Fs.readFile w filePath); by intros [= <-].
Qed.

Lemma loaded_records w this files :
  scanForComponents w (componentsDir w) = Return files →
  Forall2 (λ f c, parseComponent w f = Return c) files
    (componentsCache (loadComponents w this)).
Proof.
  intros Hs. unfold loadComponents. rewrite Hs. simpl.
  rewrite promise_all_parse. simpl. clear Hs.
  induction files as [|f files IH]; simpl; constructor; [|by apply IH].
  by destruct (parseComponent_returns w f) as [c ->].
Qed.

End ScanFacts.

(** X5.  Every path the scanner returns lies below the directory it was
    given and ends in [.tsx] or [.ts]. *)
Theorem scanned_paths (w : world) (dir : string) (files : list string)
    (f : string) :
  scanForComponents w dir = Return files → f ∈ files →
  Str.startsWith f (Path.with_sep dir) = true ∧ ends_in_ts f = true.
Proof.
  unfold scanForComponents. intros [= <-] Hf.
  destruct (Fs.resolve w dir) as [n|]; [|by apply elem_of_nil in Hf].
  apply scan_node_paths in Hf as (rest & -> & Hrest). split.
  - apply startsWith_true. by exists rest.
  - by apply ends_in_ts_app.
Qed.

Lemma scanned_paths_witness :
  Str.startsWith "/app/src/components/ui/Button.tsx"
    (Path.with_sep "/app/src/components") = true
  ∧ ends_in_ts "/app/src/components/ui/Button.tsx" = true.
Proof.
  apply (scanned_paths project_with_button "/app/src/components"
           ["/app/src/components/ui/Button.tsx"]); [reflexivity|].
  by apply list_elem_of_singleton.
Defined.

(** X6.  The scanner misses no source file that it comes to.  In a listed
    directory, when the sub-scan of no entry before an entry is too long
    to be pushed (longer than the number of arguments the engine takes):
    if the entry is a file whose name ends in [.tsx] or [.ts], it is
    returned under the path of the directory joined with its name, whether
    or not the file can be read; and if the sub-scan of the entry itself
    can be pushed, whatever it returns is returned by the scan of the
    directory. *)
Theorem scan_is_complete (w : world) (dir : string) (before after : list dirent)
    (files : list string) (entry_name : string) (target : node) :
  Fs.readdir w dir = Some (before ++ Dirent entry_name target :: after) →
  scanForComponents w dir = Return files →
  Forall (fits w dir) before →
  (Fs.isDirectory (Dirent entry_name target) = false →
   ends_in_ts entry_name = true → Path.join dir entry_name ∈ files)
  ∧ (fits w dir (Dirent entry_name target) →
     ∀ f, f ∈ scan_node w (Path.join dir entry_name) target → f ∈ files).
Proof.
  intros Hd. rewrite (scanForComponents_readdir _ _ _ Hd). intros [= <-] Hb.
  simpl. rewrite (scan_loop_fits _ _ _ _ _ Hb).
  assert (fits w dir (Dirent entry_name target) →
          ∀ f, f ∈ found_in w dir (Dirent entry_name target) →
               f ∈ scan_loop w (scan_node w) dir (Dirent entry_name target :: after)
                     ([] ++ (before ≫= found_in w dir))) as Hin.
  { intros He f Hf. rewrite (scan_loop_step _ _ _ _ _ He).
    apply scan_loop_keeps, elem_of_app. by right. }
  split.
  - intros Hfile Hts. apply Hin; [by apply file_fits|].
    unfold found_in. rewrite Hfile. simpl. rewrite Hts.
    by apply list_elem_of_singleton.
  - intros He f Hf. apply Hin; [done|]. unfold found_in.
    destruct target as [c|sub]; [by apply elem_of_nil in Hf|done].
Qed.

Lemma scan_is_complete_witness :
  (Fs.isDirectory (Dirent "Locked.ts" (File None)) = false →
   ends_in_ts "Locked.ts" = true →
   Path.join "/app/src/components" "Locked.ts"
   ∈ ["/app/src/components/ui/Button.tsx"; "/app/src/components/Locked.ts"])
  ∧ (fits locked_project "/app/src/components" (Dirent "Locked.ts" (File None)) →
     ∀ f, f ∈ scan_node locked_project
                (Path.join "/app/src/components" "Locked.ts") (File None) →
          f ∈ ["/app/src/components/ui/Button.tsx";
               "/app/src/components/Locked.ts"]).
Proof.
  apply (scan_is_complete locked_project "/app/src/components"
           [Dirent "ui" (Directory (Some [Dirent "Button.tsx"
                                            (File (Some button_source))]))]
           []); [reflexivity|reflexivity|].
  apply Forall_cons. split; [by vm_compute|apply Forall_nil_2].
Defined.

(** X22.  A sub-scan too long to be pushed ends the scan of the directory
    that holds it: when the entries before such a subdirectory can all be
    pushed, the scan returns what those entries hold and nothing else; the
    paths below the subdirectory and every entry listed after it are
    lost. *)
Theorem oversized_subscan_ends_scan (w : world) (dir : string)
    (before after : list dirent) (entry_name : string) (target : node) :
  Fs.readdir w dir = Some (before ++ Dirent entry_name target :: after) →
  Forall (fits w dir) before →
  ¬ fits w dir (Dirent entry_name target) →
  scanForComponents w dir = Return (before ≫= found_in w dir).
Proof.
  intros Hd Hb Hover. rewrite (scanForComponents_readdir _ _ _ Hd). simpl.
  by rewrite (scan_loop_fits _ _ _ _ _ Hb), (scan_loop_stop _ _ _ _ _ Hover).
Qed.

Lemma oversized_subscan_ends_scan_witness :
  scanForComponents crowded_project "/app/src" = Return ["/app/src/A.tsx"].
Proof.
  apply (oversized_subscan_ends_scan crowded_project "/app/src"
           [Dirent "A.tsx" (File (Some ""))]
           [Dirent "z.ts" (File (Some ""))] "big"
           (Directory (Some [Dirent "b.ts" (File None);
                             Dirent "c.ts" (File None)])));
    [reflexivity| |by vm_compute].
  apply Forall_cons. split; [by vm_compute|apply Forall_nil_2].
Defined.

(** X7.  A load stores one record per scanned file, in the order of the
    scan: the record at a position is the parse of the file at that
    position, named after the file (base name without extension) and with
    the path of the file relative to the working directory. *)
Theorem load_one_record_per_file (w : world) (this : ComponentMCPServer)
    (files : list string) :
  scanForComponents w (componentsDir w) = Return files →
  let cache := componentsCache (loadComponents w this) in
  length cache = length files
  ∧ name <$> cache = (λ f, Path.basename f (Path.extname f)) <$> files
  ∧ path <$> cache = Path.relative (cwd w) <$> files
  ∧ ∀ i f, files !! i = Some f →
           ∃ c, cache !! i = Some c ∧ parseComponent w f = Return c.
Proof.
  intros Hs. cbv zeta. pose proof (loaded_records w this files Hs) as H.
  clear Hs. split; [symmetry; by eapply Forall2_length|].
  split; [|split].
  - induction H as [|f c files cache Hp _ IH]; [done|].
    by rewrite !fmap_cons, IH, (parseComponent_name _ _ _ Hp).
  - induction H as [|f c files cache Hp _ IH]; [done|].
    rewrite !fmap_cons, IH.
    by destruct (parseComponent_inv _ _ _ Hp) as (_ & -> & _).
  - intros i f Hi. destruct (Forall2_lookup_l _ _ _ _ _ H Hi) as (c & Hc & Hp).
    by exists c.
Qed.

Lemma load_one_record_per_file_witness :
  let cache := componentsCache (loadComponents project_with_button new_server) in
  length cache = length ["/app/src/components/ui/Button.tsx"]
  ∧ name <$> cache
    = (λ f, Path.basename f (Path.extname f)) <$> ["/app/src/components/ui/Button.tsx"]
  ∧ path <$> cache
    = Path.relative (cwd project_with_button) <$> ["/app/src/components/ui/Button.tsx"]
  ∧ ∀ i f, ["/app/src/components/ui/Button.tsx"] !! i = Some f →
           ∃ c, cache !! i = Some c ∧ parseComponent project_with_button f = Return c.
Proof.
  apply (load_one_record_per_file project_with_button new_server
           ["/app/src/components/ui/Button.tsx"]).
  reflexivity.
Defined.

(** X8.  The name of the record parsed from a scanned file is the name of
    the file without its final extension, inner dots kept
    ([Card.test.tsx] gives [Card.test]), whatever the file holds. *)
Theorem component_name_is_stem (w : world) (dir stem ext : string)
    (c : ComponentDefinition) :
  ext = ".tsx" ∨ ext = ".ts" → stem ≠ "" →
  Str.every (Char.other_than Char.slash) stem = true →
  parseComponent w (Path.join dir (stem +:+ ext)) = Return c →
  name c = stem.
Proof.
  intros Hext Hne Hstem Hp. rewrite (parseComponent_name _ _ _ Hp).
  by apply componentName_stem.
Qed.

Lemma component_name_is_stem_witness :
  name {| name := "Card.test"; path := "src/components/Card.test.tsx";
          props := []; usage := "<Card.test />"; dependencies := None |}
  = "Card.test".
Proof.
  apply (component_name_is_stem (project []) "/app/src/components"
           "Card.test" ".tsx"); [by left|discriminate|reflexivity|reflexivity].
Defined.

(** * Further properties of the cache *)

Section CacheInvariant.

Implicit Types (w : world) (this : ComponentMCPServer) (c : ComponentDefinition).

Lemma loaded_parsed w this c :
  c ∈ componentsCache (loadComponents w this) →
  ∃ f, parseComponent w f = Return c.
Proof.
  intros Hc. apply (load_scanned w this _ eq_refl) in Hc as (f & _ & Hp).
  by exists f.
Qed.

Lemma reachable_parsed this c :
  reachable this → c ∈ componentsCache this →
  ∃ w f, parseComponent w f = Return c.
Proof.
  induction 1 as [|w this a _ IH]; [by intros ?%elem_of_nil|].
  destruct (serve_state w this a) as [-> | ->]; [done|].
  unfold ensure_loaded. destruct (Nat.eqb _ _); [|done].
  intros (f & Hp)%loaded_parsed. by exists w, f.
Qed.

End CacheInvariant.

(** X9.  Every record the cache can hold was parsed from a file: its usage
    is the one generated from its name and properties, its path lies below
    [src] and ends in [.tsx] or [.ts], and the names of its properties are
    made of word characters. *)
Theorem cached_records_are_parsed (this : ComponentMCPServer)
    (c : ComponentDefinition) :
  reachable this → c ∈ componentsCache this →
  usage c = generateUsageExample (name c) (props c)
  ∧ path_ok (path c) = true
  ∧ ∀ n cfg, (n, cfg) ∈ props c → word_only n = true.
Proof.
  intros Hr Hc. destruct (reachable_parsed _ _ Hr Hc) as (w & f & Hp).
  apply parseComponent_inv in Hp as (Hu & _ & Hw).
  split; [done|]. split; [by apply (reachable_paths_ok _ Hr)|].
  intros n cfg Hin. apply (Hw _ Hin).
Qed.

Lemma cached_records_are_parsed_witness :
  let c := {| name := "Button"; path := "src/components/ui/Button.tsx";
              props := [("label", {| type := "string"; optional := false |});
                        ("on", {| type := "boolean"; optional := true |})];
              usage := "<Button label={" +:+ Str.dquote +:+ "example"
                         +:+ Str.dquote +:+ "} />";
              dependencies := Some [] |} in
  usage c = generateUsageExample (name c) (props c)
  ∧ path_ok (path c) = true
  ∧ ∀ n cfg, (n, cfg) ∈ props c → word_only n = true.
Proof.
  apply (cached_records_are_parsed
           (fst (serve project_with_button new_server all_components))).
  - apply reachable_serve, reachable_new.
  - vm_compute. by apply list_elem_of_singleton.
Defined.

(** X10.  The two built-in default records never reach the cache: no state
    of the server holds one of them. *)
Theorem defaults_never_cached (this : ComponentMCPServer)
    (d : ComponentDefinition) :
  reachable this → d ∈ getDefaultComponents → d ∉ componentsCache this.
Proof.
  intros Hr Hd Hin.
  destruct (reachable_parsed _ _ Hr Hin) as (w & f & Hp).
  apply parseComponent_inv in Hp as (Hu & _).
  unfold getDefaultComponents in Hd.
  apply elem_of_cons in Hd as [->|Hd]; [vm_compute in Hu; discriminate Hu|].
  apply list_elem_of_singleton in Hd as ->. vm_compute in Hu. discriminate Hu.
Qed.

Lemma defaults_never_cached_witness :
  {| name := "Preview";
     path := "src/components/Preview.tsx";
     props := [("code", {| type := "string"; optional := false |})];
     usage := "<Preview code={generatedCode} />";
     dependencies := Some ["react"] |}
  ∉ componentsCache (fst (serve project_without_components new_server all_components)).
Proof.
  apply defaults_never_cached.
  - apply reachable_serve, reachable_new.
  - apply elem_of_cons. by left.
Defined.

(** * Further properties of the parser *)

Section PropsFacts.

Implicit Types (acc : Obj.t PropConfig) (k line : string) (v : PropConfig).

Lemma assign_keys {V} k (v : V) (o : Obj.t V) :
  fst <$> Obj.assign k v o
  = if bool_decide (k ∈ fst <$> o) then fst <$> o else (fst <$> o) ++ [k].
Proof.
  induction o as [|[k' v'] o IH]; [done|]. simpl.
  destruct (String.eqb_spec k' k) as [->|Hne].
  - rewrite bool_decide_eq_true_2; [done|]. apply elem_of_cons. by left.
  - rewrite fmap_cons, IH. simpl. case_bool_decide as Hin.
    + rewrite bool_decide_eq_true_2; [done|]. apply elem_of_cons. by right.
    + rewrite bool_decide_eq_false_2; [done|].
      intros [?|?]%elem_of_cons; [congruence|done].
Qed.

Lemma set_keys_NoDup {V} k (v : V) (o : Obj.t V) :
  NoDup (fst <$> o) → NoDup (fst <$> Obj.set k v o).
Proof.
  intros Hnd. unfold Obj.set. destruct (String.eqb k "__proto__"); [done|].
  rewrite assign_keys. case_bool_decide as Hin; [done|].
  apply NoDup_app. split; [done|]. split; [|apply NoDup_singleton].
  intros x Hx ->%list_elem_of_singleton. done.
Qed.

Lemma set_elem_key {V} k (v : V) (o : Obj.t V) e :
  e ∈ Obj.set k v o → e ∈ o ∨ (fst e = k ∧ k ≠ "__proto__").
Proof.
  unfold Obj.set. destruct (String.eqb_spec k "__proto__") as [->|Hne]; [by left|].
  intros [?|?]%assign_elem; [by left|by right].
Qed.

(** The first group of the property-line pattern is not empty. *)
Lemma prop_line_name_nonempty line (m : Regex.result) :
  Regex.exec prop_line_pattern line = Some m →
  ∃ n, Regex.capture 1 (Regex.groups m) = Some n ∧ n ≠ "".
Proof.
  intros [s0 H]%exec_inv. unfold Regex.at_start in H.
  change prop_line_pattern with
    (Regex.Seq (Regex.Group 1 (Regex.Plus Char.is_word))
       (Regex.seq
          [ Regex.Opt (Regex.Group 2 (Regex.Lit "?"));
            Regex.Lit ":"; Regex.Star Char.is_space;
            Regex.Group 3 (Regex.Plus (Char.none_of [";"%char])) ])) in H.
  rewrite run_seq, run_group in H.
  apply plus_inv in H as (pre & s' & -> & Hne & _ & H).
  rewrite take_app_length in H.
  apply run_frame in H as (s2 & c2 & [= <-] & Hc). simpl.
  exists pre. split; [|done]. rewrite Hc; [done|].
  vm_compute. intros Hin.
  repeat (inversion_clear Hin as [|? ? ? Hin']; rename Hin' into Hin).
Qed.

Lemma add_prop_good acc line :
  NoDup (fst <$> acc) ∧ (∀ e, e ∈ acc → good_key (fst e)) →
  NoDup (fst <$> add_prop acc line)
  ∧ (∀ e, e ∈ add_prop acc line → good_key (fst e)).
Proof.
  intros [Hnd Hgood]. unfold add_prop.
  destruct (Regex.exec prop_line_pattern line) as [m|] eqn:E; [|done].
  destruct (prop_line_name _ _ E) as (n & Hn & Hw).
  destruct (prop_line_name_nonempty _ _ E) as (n' & Hn' & Hne).
  rewrite Hn in Hn'. injection Hn' as <-. rewrite Hn. simpl.
  split; [by apply set_keys_NoDup|].
  intros e [He|[-> Hp]]%set_elem_key; [by apply Hgood|done].
Qed.

Lemma parse_props_good content :
  NoDup (fst <$> parse_props content)
  ∧ (∀ e, e ∈ parse_props content → good_key (fst e)).
Proof.
  unfold parse_props. destruct (Regex.exec props_pattern content) as [m|].
  - generalize (Str.trim <$>
      List.filter
        (λ line, Str.truthy (Str.trim line)
                 && negb (Str.startsWith (Str.trim line) "//"))
        (Str.split Char.newline (default "" (Regex.capture 2 (Regex.groups m))))).
    intros propLines.
    assert (NoDup (fst <$> (Obj.empty : Obj.t PropConfig))
            ∧ (∀ e, e ∈ (Obj.empty : Obj.t PropConfig) → good_key (fst e))) as H0.
    { split; [apply NoDup_nil_2|by intros ? ?%elem_of_nil]. }
    revert H0. generalize (Obj.empty : Obj.t PropConfig).
    induction propLines as [|line propLines IH]; intros acc H0; [done|].
    simpl. by apply IH, add_prop_good.
  - split; [apply NoDup_nil_2|by intros ? ?%elem_of_nil].
Qed.

End PropsFacts.

(** X11.  In a parsed record the property names are pairwise distinct,
    non-empty, made of word characters, and none is [__proto__]. *)
Theorem parsed_property_names (w : world) (filePath : string)
    (c : ComponentDefinition) :
  parseComponent w filePath = Return c →
  NoDup (fst <$> props c)
  ∧ ∀ n cfg, (n, cfg) ∈ props c →
             n ≠ "" ∧ word_only n = true ∧ n ≠ "__proto__".
Proof.
  unfold parseComponent. destruct (Fs.readFile w filePath) as [content|];
    intros [= <-]; simpl.
  - destruct (parse_props_good content) as [Hnd Hgood].
    split; [done|]. intros n cfg Hin. apply (Hgood _ Hin).
  - split; [apply NoDup_nil_2|by intros ? ? ?%elem_of_nil].
Qed.

Lemma parsed_property_names_witness :
  let c := {| name := "Button"; path := "src/components/ui/Button.tsx";
              props := [("label", {| type := "string"; optional := false |});
                        ("on", {| type := "boolean"; optional := true |})];
              usage := "<Button label={" +:+ Str.dquote +:+ "example"
                         +:+ Str.dquote +:+ "} />";
              dependencies := Some [] |} in
  NoDup (fst <$> props c)
  ∧ ∀ n cfg, (n, cfg) ∈ props c →
             n ≠ "" ∧ word_only n = true ∧ n ≠ "__proto__".
Proof.
  apply (parsed_property_names project_with_button
           "/app/src/components/ui/Button.tsx").
  vm_compute. reflexivity.
Defined.

Lemma app_inv_head (p a b : string) : p +:+ a = p +:+ b → a = b.
Proof.
  induction p as [|c p IH]; [done|]. rewrite !app_cons. intros [= H]. by apply IH.
Qed.

(** X12.  The usage example is the bare tag [<Name />] exactly when the
    record has no required property. *)
Theorem usage_bare_iff (componentName : string) (props : Obj.t PropConfig) :
  generateUsageExample componentName props = "<" +:+ componentName +:+ " />"
  ↔ ∀ n cfg, (n, cfg) ∈ props → optional cfg = true.
Proof.
  rewrite generateUsageExample_join.
  destruct (List.filter (λ e, negb (optional (snd e))) (Obj.entries props))
    as [|[n cfg] required] eqn:E.
  - split; [intros _|intros _; simpl; by rewrite app_assoc].
    intros n cfg Hin. destruct (optional cfg) eqn:Ho; [done|].
    assert ((n, cfg) ∈ List.filter (λ e, negb (optional (snd e)))
                         (Obj.entries props)) as Hf.
    { apply list_elem_of_In, filter_In. split.
      - by apply list_elem_of_In, entries_elem.
      - simpl. by rewrite Ho. }
    rewrite E in Hf. by apply elem_of_nil in Hf.
  - split.
    + rewrite fmap_cons.
      change ((?a :: ?l) ++ ["/>"]) with (a :: (l ++ ["/>"])).
      rewrite join_cons_cons, app_assoc.
      change (" />") with (" " +:+ "/>"). intros H.
      apply app_inv_head, app_inv_head, app_inv_head in H.
      apply (f_equal String.length) in H. revert H.
      destruct ((usage_fragment <$> required) ++ ["/>"]) as [|x l] eqn:E'.
      { by destruct required. }
      rewrite join_cons_cons. unfold usage_fragment. simpl fst. simpl snd.
      rewrite !app_length. simpl. lia.
    + intros Hall.
      assert ((n, cfg) ∈ List.filter (λ e, negb (optional (snd e)))
                           (Obj.entries props)) as Hf.
      { rewrite E. apply elem_of_cons. by left. }
      apply list_elem_of_In, filter_In in Hf as [Hin Hr].
      apply (proj2 (list_elem_of_In _ _)) in Hin.
      apply (proj1 (entries_elem _ _)) in Hin.
      simpl in Hr. rewrite (Hall _ _ Hin) in Hr. discriminate Hr.
Qed.

(** ** What the patterns match *)

Section RegexInversion.

Context {R : Type}.
Implicit Types (p : ascii → bool) (s l : string) (c : Regex.captures)
  (k : string → Regex.captures → option R) (r : Regex.t).

Lemma lit_inv l s c k x :
  Regex.run (Regex.Lit l) s c k = Some x →
  ∃ s', s = l +:+ s' ∧ k s' c = Some x.
Proof.
  simpl. destruct (Str.strip l s) as [s'|] eqn:E; [|done].
  apply strip_Some in E. intros H. by exists s'.
Qed.

Lemma class_inv p s c k x :
  Regex.run (Regex.Class p) s c k = Some x →
  ∃ a s', s = String a s' ∧ p a = true ∧ k s' c = Some x.
Proof.
  simpl. destruct s as [|a s]; [done|]. destruct (p a) eqn:E; [|done].
  intros H. by exists a, s.
Qed.

(** A match continues on a suffix of the text. *)
Lemma run_suffix r s c k x :
  Regex.run r s c k = Some x →
  ∃ used s' c', s = used +:+ s' ∧ k s' c' = Some x.
Proof.
  revert s c k. induction r as [l|p|p|p|r IH|i r IH|r1 IH1 r2 IH2];
    intros s c k.
  - intros (s' & -> & H)%lit_inv. by exists l, s', c.
  - intros (a & s' & -> & _ & H)%class_inv. by exists (String a ""), s', c.
  - intros (pre & s' & -> & _ & Hk)%star_inv. by exists pre, s', c.
  - intros (pre & s' & -> & _ & _ & Hk)%plus_inv. by exists pre, s', c.
  - simpl. destruct (Regex.run r s c k) as [y|] eqn:E.
    + intros [= ->]. by apply IH in E.
    + intros H. by exists "", s, c.
  - simpl. intros (used & s' & c' & -> & Hk)%IH. by eexists used, s', _.
  - simpl. intros (u1 & s1 & c1 & -> & H2)%IH1.
    apply IH2 in H2 as (u2 & s2 & c2 & -> & Hk).
    exists (u1 +:+ u2), s2, c2. by rewrite app_assoc.
Qed.

End RegexInversion.

Section ExecFacts.

Implicit Types (r : Regex.t) (s : string) (m : Regex.result).

Lemma at_start_parts r s m :
  Regex.at_start r s = Some m → s = Regex.whole m +:+ Regex.rest m.
Proof.
  unfold Regex.at_start. intros (used & s' & c' & -> & [= <-])%run_suffix.
  simpl. by rewrite take_app_length.
Qed.

Lemma exec_suffix r s m :
  Regex.exec r s = Some m →
  ∃ pre s0, s = pre +:+ s0 ∧ Regex.at_start r s0 = Some m.
Proof.
  induction s as [|a s IH]; simpl.
  - destruct (Regex.at_start r "") eqn:E; [|done]. intros [= ->]. by exists "", "".
  - destruct (Regex.at_start r (String a s)) eqn:E.
    + intros [= ->]. by exists "", (String a s).
    + intros (pre & s0 & -> & H)%IH. by exists (String a pre), s0.
Qed.

Lemma exec_parts r s m :
  Regex.exec r s = Some m →
  ∃ pre, s = pre +:+ Regex.whole m +:+ Regex.rest m.
Proof.
  intros (pre & s0 & -> & H)%exec_suffix. exists pre.
  by rewrite <- (at_start_parts _ _ _ H).
Qed.

(** A pattern that starts with a literal matches only text that holds the
    literal. *)
Lemma exec_literal l r s m :
  Regex.exec (Regex.Seq (Regex.Lit l) r) s = Some m →
  Str.includes s l = true.
Proof.
  intros (pre & s0 & -> & H)%exec_suffix. unfold Regex.at_start in H.
  rewrite run_seq in H. apply lit_inv in H as (s' & -> & _).
  apply includes_true. by exists pre, s'.
Qed.

Lemma match_all_from_elem fuel r s x :
  x ∈ Regex.match_all_from fuel r s →
  ∃ pre s1 m, s = pre +:+ s1 ∧ Regex.exec r s1 = Some m ∧ x = Regex.whole m.
Proof.
  revert s. induction fuel as [|fuel IH]; intros s; simpl;
    [by intros ?%elem_of_nil|].
  destruct (Regex.exec r s) as [m|] eqn:E; [|by intros ?%elem_of_nil].
  intros [->|Hx]%elem_of_cons; [by exists "", s, m|].
  destruct (exec_parts _ _ _ E) as [pre Hs].
  assert (∀ s', (∃ u, Regex.rest m = u +:+ s') →
                x ∈ Regex.match_all_from fuel r s' →
                ∃ pre s1 m, s = pre +:+ s1 ∧ Regex.exec r s1 = Some m
                            ∧ x = Regex.whole m) as Hnext.
  { intros s' [u Hu] (pre' & s1 & m' & -> & H1 & H2)%IH.
    exists (pre +:+ Regex.whole m +:+ u +:+ pre'), s1, m'.
    split; [|done]. rewrite Hs, Hu. by rewrite !app_assoc. }
  destruct (Regex.whole m) as [|a wm] eqn:Ew.
  - destruct (Regex.rest m) as [|b rm] eqn:Er; [by apply elem_of_nil in Hx|].
    apply (Hnext rm); [by exists (String b "")|done].
  - apply (Hnext (Regex.rest m)); [by exists ""|done].
Qed.

End ExecFacts.

(** X13.  What the interface pattern of the parser matches: the word
    [interface], white space, a name of word characters that ends in
    [Props] after at least one other character, optional white space, an
    opening brace, a non-empty block without closing brace, and the
    closing brace.  The block handed to the line parser is the text between
    that opening brace and the first closing brace after it. *)
Theorem props_block_shape (content : string) (m : Regex.result) :
  Regex.exec props_pattern content = Some m →
  ∃ before ws1 stem ws2 block,
    content = before +:+ "interface" +:+ ws1 +:+ stem +:+ "Props" +:+ ws2
                +:+ "{" +:+ block +:+ "}" +:+ Regex.rest m
    ∧ ws1 ≠ "" ∧ Str.every Char.is_space ws1 = true
    ∧ stem ≠ "" ∧ word_only stem = true
    ∧ Str.every Char.is_space ws2 = true
    ∧ block ≠ "" ∧ Str.every (Char.none_of ["}"%char]) block = true
    ∧ Regex.capture 1 (Regex.groups m) = Some (stem +:+ "Props")
    ∧ Regex.capture 2 (Regex.groups m) = Some block.
Proof.
  intros (before & s0 & -> & H)%exec_suffix. unfold Regex.at_start in H.
  change props_pattern with
    (Regex.Seq (Regex.Lit "interface")
       (Regex.Seq (Regex.Plus Char.is_space)
          (Regex.Seq
             (Regex.Group 1 (Regex.Seq (Regex.Plus Char.is_word) (Regex.Lit "Props")))
             (Regex.Seq (Regex.Star Char.is_space)
                (Regex.Seq (Regex.Lit "{")
                   (Regex.Seq (Regex.Group 2 (Regex.Plus (Char.none_of ["}"%char])))
                      (Regex.Lit "}"))))))) in H.
  rewrite run_seq in H. apply lit_inv in H as (s1 & -> & H).
  rewrite run_seq in H. apply plus_inv in H as (ws1 & s2 & -> & Hws1 & Hs1 & H).
  rewrite run_seq, run_group, run_seq in H.
  apply plus_inv in H as (stem & s3 & -> & Hstem & Hw & H).
  apply lit_inv in H as (s4 & -> & H).
  rewrite run_seq in H. apply star_inv in H as (ws2 & s5 & -> & Hs2 & H).
  rewrite run_seq in H. apply lit_inv in H as (s6 & -> & H).
  rewrite run_seq, run_group in H.
  apply plus_inv in H as (block & s7 & -> & Hblock & Hb & H).
  apply lit_inv in H as (rest & -> & [= <-]). simpl.
  exists before, ws1, stem, ws2, block. split; [done|].
  repeat (split; [done|]). rewrite take_app_length.
  split; [|done]. rewrite <- (app_assoc stem "Props").
  by rewrite take_app_length.
Qed.

Lemma props_block_shape_witness :
  ∃ before ws1 stem ws2 block,
    foo_one_line
    = before +:+ "interface" +:+ ws1 +:+ stem +:+ "Props" +:+ ws2
        +:+ "{" +:+ block +:+ "}" +:+ ""
    ∧ ws1 ≠ "" ∧ Str.every Char.is_space ws1 = true
    ∧ stem ≠ "" ∧ word_only stem = true
    ∧ Str.every Char.is_space ws2 = true
    ∧ block ≠ "" ∧ Str.every (Char.none_of ["}"%char]) block = true
    ∧ Regex.capture 1 [(2, " bar: string; baz?: number; "); (1, "FooProps")]
      = Some (stem +:+ "Props")
    ∧ Regex.capture 2 [(2, " bar: string; baz?: number; "); (1, "FooProps")]
      = Some block.
Proof.
  apply (props_block_shape foo_one_line
           {| Regex.whole := foo_one_line;
              Regex.groups := [(2, " bar: string; baz?: number; "); (1, "FooProps")];
              Regex.rest := "" |}).
  vm_compute. reflexivity.
Defined.

Lemma includes_app_r (pre s sub : string) :
  Str.includes s sub = true → Str.includes (pre +:+ s) sub = true.
Proof.
  rewrite !includes_true. intros (a & b & ->). exists (pre +:+ a), b.
  by rewrite app_assoc.
Qed.

Lemma includes_app_l (s post sub : string) :
  Str.includes s sub = true → Str.includes (s +:+ post) sub = true.
Proof.
  rewrite !includes_true. intros (a & b & ->). exists a, (b +:+ post).
  by rewrite !app_assoc.
Qed.

Lemma parse_props_without_interface (content : string) :
  Str.includes content "interface" = false → parse_props content = [].
Proof.
  intros H. unfold parse_props.
  destruct (Regex.exec props_pattern content) as [m|] eqn:E; [|done].
  pose proof (exec_literal "interface" _ content m E) as Hin. congruence.
Qed.

(** X14.  A readable file whose text nowhere holds the word [interface]
    parses to a record without properties whose usage is the bare tag. *)
Theorem parse_without_interface (w : world) (filePath content : string) :
  Fs.readFile w filePath = Some content →
  Str.includes content "interface" = false →
  let componentName := Path.basename filePath (Path.extname filePath) in
  parseComponent w filePath
  = Return {| name := componentName;
              path := Path.relative (cwd w) filePath;
              props := [];
              usage := "<" +:+ componentName +:+ " />";
              dependencies := Some (extractDependencies content) |}.
Proof.
  intros Hr Hi. cbv zeta. unfold parseComponent. rewrite Hr. simpl.
  by rewrite (parse_props_without_interface _ Hi).
Qed.

Lemma parse_without_interface_witness :
  parseComponent (project [Dirent "util.ts" (File (Some "export const x = 1;"))])
    "/app/src/components/util.ts"
  = Return {| name := "util";
              path := "src/components/util.ts";
              props := [];
              usage := "<" +:+ "util" +:+ " />";
              dependencies := Some (extractDependencies "export const x = 1;") |}.
Proof.
  apply (parse_without_interface
           (project [Dirent "util.ts" (File (Some "export const x = 1;"))])
           "/app/src/components/util.ts" "export const x = 1;"); reflexivity.
Defined.

(** X15.  An interface named just [Props] is not taken for the property
    block (the pattern wants a character before [Props]): the parser reads
    a text that starts with [interface Props {] as it reads the text after
    that header. *)
Theorem interface_named_Props_is_skipped (rest : string) :
  parse_props ("interface Props {" +:+ rest) = parse_props rest.
Proof.
  unfold parse_props.
  assert (Regex.exec props_pattern ("interface Props {" +:+ rest)
          = Regex.exec props_pattern rest) as ->; [|done].
  vm_compute. reflexivity.
Qed.

(** X16.  Every dependency the parser reports is a non-empty text without
    quote characters that stands in the file between two quote characters
    (not necessarily the same) after the word [from] and white space, and
    the file holds the word [import]; a file without [import] has no
    dependencies. *)
Theorem dependencies_shape (content d : string) :
  d ∈ extractDependencies content →
  d ≠ ""
  ∧ Str.every (Char.none_of [Char.squote; Char.dquote]) d = true
  ∧ Str.includes content "import" = true
  ∧ ∃ ws q1 q2,
      ws ≠ "" ∧ Str.every Char.is_space ws = true
      ∧ quote_class q1 = true ∧ quote_class q2 = true
      ∧ Str.includes content
          ("from" +:+ ws +:+ String q1 d +:+ String q2 "") = true.
Proof.
  unfold extractDependencies. intros Hd.
  apply list_elem_of_In, filter_In in Hd as [Hd Ht].
  apply (proj2 (list_elem_of_In _ _)) in Hd.
  apply list_elem_of_omap in Hd as (mt & Hmt & Hf).
  unfold Regex.match_all in Hmt.
  apply match_all_from_elem in Hmt as (pre & s1 & m1 & -> & E1 & ->).
  destruct (Regex.exec from_pattern (Regex.whole m1)) as [fm|] eqn:E2;
    [|done]. simpl in Hf.
  pose proof (exec_literal "import" _ s1 m1 E1) as Himport.
  destruct (exec_parts _ _ _ E1) as [pre1 Hs1].
  apply exec_suffix in E2 as (pre2 & s0 & Hw & H). unfold Regex.at_start in H.
  change from_pattern with
    (Regex.Seq (Regex.Lit "from")
       (Regex.Seq (Regex.Plus Char.is_space)
          (Regex.Seq (Regex.Class quote_class)
             (Regex.Seq
                (Regex.Group 1 (Regex.Plus (Char.none_of [Char.squote; Char.dquote])))
                (Regex.Class quote_class))))) in H.
  rewrite run_seq in H. apply lit_inv in H as (s2 & -> & H).
  rewrite run_seq in H. apply plus_inv in H as (ws & s3 & -> & Hws & Hsp & H).
  rewrite run_seq in H. apply class_inv in H as (q1 & s4 & -> & Hq1 & H).
  rewrite run_seq, run_group in H.
  apply plus_inv in H as (spec & s5 & -> & Hne & Hspec & H).
  apply class_inv in H as (q2 & s6 & -> & Hq2 & [= <-]).
  simpl in Hf. rewrite take_app_length in Hf. injection Hf as <-.
  split; [done|]. split; [done|]. split; [by apply includes_app_r|].
  exists ws, q1, q2. repeat (split; [done|]).
  apply includes_app_r. rewrite Hs1, Hw. apply includes_app_r, includes_app_l.
  apply includes_app_r, includes_true. exists "", s6.
  rewrite app_nil_l, !app_assoc. reflexivity.
Qed.

Lemma dependencies_shape_witness :
  "react" ≠ ""
  ∧ Str.every (Char.none_of [Char.squote; Char.dquote]) "react" = true
  ∧ Str.includes "import React from 'react';" "import" = true
  ∧ ∃ ws q1 q2,
      ws ≠ "" ∧ Str.every Char.is_space ws = true
      ∧ quote_class q1 = true ∧ quote_class q2 = true
      ∧ Str.includes "import React from 'react';"
          ("from" +:+ ws +:+ String q1 "react" +:+ String q2 "") = true.
Proof.
  apply (dependencies_shape "import React from 'react';" "react").
  vm_compute. by apply list_elem_of_singleton.
Defined.

(** ** Running the patterns forward *)

Section RegexForward.

Context {R : Type}.
Implicit Types (p : ascii → bool) (s l pre : string) (c : Regex.captures)
  (k : string → Regex.captures → option R) (r : Regex.t).

Lemma lit_fwd l s c k : Regex.run (Regex.Lit l) (l +:+ s) c k = k s c.
Proof. simpl. by rewrite strip_app. Qed.

Lemma star_stop p s c k : stops p s = true → Regex.star p s c k = k s c.
Proof.
  destruct s as [|a s]; [done|]. simpl. intros H%negb_true_iff. by rewrite H.
Qed.

(** A success further on is the result: the longer repetition is tried
    first. *)
Lemma star_descend p pre s c k x :
  Str.every p pre = true → Regex.star p s c k = Some x →
  Regex.star p (pre +:+ s) c k = Some x.
Proof.
  intros Hpre Hs. induction pre as [|a pre IH]; [done|].
  simpl in Hpre. apply andb_true_iff in Hpre as [Ha Hpre].
  rewrite app_cons. simpl. by rewrite Ha, (IH Hpre).
Qed.

Lemma star_take_all p pre s c k x :
  Str.every p pre = true → stops p s = true → k s c = Some x →
  Regex.star p (pre +:+ s) c k = Some x.
Proof.
  intros Hpre Hs Hk. apply star_descend; [done|]. by rewrite star_stop.
Qed.

Lemma plus_descend p pre s c k x :
  pre ≠ "" → Str.every p pre = true → Regex.star p s c k = Some x →
  Regex.run (Regex.Plus p) (pre +:+ s) c k = Some x.
Proof.
  intros Hne Hpre Hs. destruct pre as [|a pre]; [done|].
  simpl in Hpre. apply andb_true_iff in Hpre as [Ha Hpre].
  rewrite app_cons. simpl. rewrite Ha. by apply star_descend.
Qed.

Lemma plus_take_all p pre s c k x :
  pre ≠ "" → Str.every p pre = true → stops p s = true → k s c = Some x →
  Regex.run (Regex.Plus p) (pre +:+ s) c k = Some x.
Proof.
  intros Hne Hpre Hs Hk. apply plus_descend; [done..|]. by rewrite star_stop.
Qed.

End RegexForward.

Section ExecForward.

Implicit Types (r : Regex.t) (s l pre : string) (m : Regex.result).

Lemma exec_first r s m : Regex.at_start r s = Some m → Regex.exec r s = Some m.
Proof. intros H. destruct s; simpl; by rewrite H. Qed.

Lemma take_take n k s : n ≤ k → Str.take n (Str.take k s) = Str.take n s.
Proof.
  revert k s. induction n as [|n IH]; intros [|k] [|a s] H; simpl; try done;
    [lia|]. rewrite IH; [done|lia].
Qed.

Lemma take_app_take n k pre s :
  n ≤ String.length pre + k →
  Str.take n (pre +:+ s) = Str.take n (pre +:+ Str.take k s).
Proof.
  revert n. induction pre as [|a pre IH]; intros n H.
  - rewrite !app_nil_l. simpl in H. by rewrite take_take.
  - rewrite !app_cons. destruct n as [|n]; [done|]. simpl.
    rewrite (IH n); [done|]. simpl in H. lia.
Qed.

Lemma take_drop n s : Str.take n s +:+ Path.drop n s = s.
Proof.
  revert s. induction n as [|n IH]; intros [|a s]; simpl; try done.
  by rewrite app_cons, IH.
Qed.

Lemma take_prefix l s : Str.take (String.length l) (l +:+ s) = l.
Proof.
  induction l as [|a l IH]; [by destruct s|]. rewrite app_cons. simpl.
  by rewrite IH.
Qed.

(** A literal that does not occur where the text before [s] ends is not
    matched at a position before [s]. *)
Lemma exec_skip l r pre s :
  l ≠ "" →
  Str.includes (pre +:+ Str.take (String.length l - 1) s) l = false →
  Regex.exec (Regex.Seq (Regex.Lit l) r) (pre +:+ s)
  = Regex.exec (Regex.Seq (Regex.Lit l) r) s.
Proof.
  intros Hl. induction pre as [|a pre IH]; [done|]. intros Hno.
  rewrite app_cons in Hno. simpl in Hno. apply orb_false_iff in Hno as [Hst Hno].
  rewrite app_cons. simpl.
  destruct (Regex.at_start (Regex.Seq (Regex.Lit l) r) (String a (pre +:+ s)))
    as [m|] eqn:E; [|by apply IH].
  unfold Regex.at_start in E. rewrite run_seq in E.
  apply lit_inv in E as (s' & E & _).
  assert (Str.startsWith (String a (pre +:+ Str.take (String.length l - 1) s)) l
          = true) as Hst'; [|congruence].
  apply startsWith_true.
  exists (Path.drop (String.length l)
            (String a pre +:+ Str.take (String.length l - 1) s)).
  assert (Str.take (String.length l)
            (String a pre +:+ Str.take (String.length l - 1) s) = l) as Ht.
  { rewrite <- take_app_take.
    - rewrite app_cons, E. apply take_prefix.
    - simpl. destruct l; [done|]. simpl. lia. }
  set (Y := String a pre +:+ Str.take (String.length l - 1) s) in *.
  change (Y = l +:+ Path.drop (String.length l) Y).
  transitivity (Str.take (String.length l) Y +:+ Path.drop (String.length l) Y);
    [symmetry; apply take_drop|by rewrite Ht].
Qed.

End ExecForward.

Section BlockForward.

Lemma word_not_space a : Char.is_word a = true → Char.is_space a = false.
Proof. by destruct a as [[] [] [] [] [] [] [] []]. Qed.

Lemma space_not_word a : Char.is_space a = true → Char.is_word a = false.
Proof. by destruct a as [[] [] [] [] [] [] [] []]. Qed.

Lemma stops_space_word (stem s : string) :
  stem ≠ "" → word_only stem = true → stops Char.is_space (stem +:+ s) = true.
Proof.
  destruct stem as [|a stem]; [done|]. intros _ [Ha _]%andb_true_iff.
  rewrite app_cons. simpl. by rewrite (word_not_space _ Ha).
Qed.

Lemma stops_word_space (ws s : string) :
  Str.every Char.is_space ws = true → stops Char.is_word s = true →
  stops Char.is_word (ws +:+ s) = true.
Proof.
  destruct ws as [|a ws]; [done|]. intros [Ha _]%andb_true_iff _.
  rewrite app_cons. simpl. by rewrite (space_not_word _ Ha).
Qed.

(** The name of the interface: the repetition of word characters runs to
    the end of the name and gives back [Props]. *)
Lemma star_word_Props {R} (s : string) c
    (k : string → Regex.captures → option R) x :
  stops Char.is_word s = true → k s c = Some x →
  Regex.star Char.is_word ("Props" +:+ s) c
    (λ s1 c1, Regex.run (Regex.Lit "Props") s1 c1 k) = Some x.
Proof.
  intros Hs Hk.
  assert (Regex.star Char.is_word s c
            (λ s1 c1, Regex.run (Regex.Lit "Props") s1 c1 k) = None) as Hend.
  { rewrite star_stop by done. destruct s as [|a s]; [reflexivity|].
    cbn [Regex.run Str.strip].
    destruct (Ascii.eqb_spec "P" a) as [<-|_]; [discriminate Hs|reflexivity]. }
  change ("Props" +:+ s)
    with (String "P" (String "r" (String "o" (String "p" (String "s" s))))).
  cbn [Regex.star]. change (Char.is_word "P") with true.
  change (Char.is_word "r") with true. change (Char.is_word "o") with true.
  change (Char.is_word "p") with true. change (Char.is_word "s") with true.
  cbv iota. rewrite Hend. simpl. by rewrite Hk.
Qed.

End BlockForward.

(** The block of the first property interface is what the lines are read
    from. *)
Lemma parse_props_block (before ws1 stem ws2 block rest : string) :
  Str.includes (before +:+ "interfac") "interface" = false →
  ws1 ≠ "" → Str.every Char.is_space ws1 = true →
  stem ≠ "" → word_only stem = true →
  Str.every Char.is_space ws2 = true →
  block ≠ "" → Str.every (Char.none_of ["}"%char]) block = true →
  parse_props
    (before +:+ "interface" +:+ ws1 +:+ stem +:+ "Props" +:+ ws2
       +:+ "{" +:+ block +:+ "}" +:+ rest)
  = fold_left add_prop (prop_lines block) Obj.empty.
Proof.
  intros Hbefore Hws1 Hs1 Hstem Hw Hs2 Hblock Hb.
  set (s := "interface" +:+ ws1 +:+ stem +:+ "Props" +:+ ws2
              +:+ "{" +:+ block +:+ "}" +:+ rest).
  assert (Regex.exec props_pattern (before +:+ s)
          = Some {| Regex.whole := Str.take (String.length s - String.length rest) s;
                    Regex.groups := [(2, block); (1, stem +:+ "Props")];
                    Regex.rest := rest |}) as E.
  { change props_pattern with
      (Regex.Seq (Regex.Lit "interface")
         (Regex.Seq (Regex.Plus Char.is_space)
            (Regex.Seq
               (Regex.Group 1 (Regex.Seq (Regex.Plus Char.is_word) (Regex.Lit "Props")))
               (Regex.Seq (Regex.Star Char.is_space)
                  (Regex.Seq (Regex.Lit "{")
                     (Regex.Seq (Regex.Group 2 (Regex.Plus (Char.none_of ["}"%char])))
                        (Regex.Lit "}"))))))).
    rewrite exec_skip; [|done|exact Hbefore].
    apply exec_first. unfold Regex.at_start, s.
    rewrite run_seq, lit_fwd, run_seq.
    apply plus_take_all; [done|done|by apply stops_space_word|].
    rewrite run_seq, run_group, run_seq.
    apply plus_descend; [done|done|].
    apply star_word_Props.
    { apply stops_word_space; [done|]. by rewrite sep_app. }
    rewrite run_seq. apply star_take_all; [done|by rewrite sep_app|].
    rewrite run_seq, lit_fwd, run_seq, run_group.
    apply plus_take_all; [done|done|by rewrite sep_app|].
    rewrite lit_fwd. rewrite take_app_length.
    rewrite <- (app_assoc stem "Props"). by rewrite take_app_length. }
  unfold parse_props. fold s. by rewrite E.
Qed.

(** X17.  Where the word [interface] first occurs, followed by white
    space, a name that ends in [Props] after at least one other word
    character, optional white space and a brace block without inner
    closing brace, the parser reads the properties from the lines of that
    block: the block runs from the opening brace to the first closing
    brace, so a property type written with braces cuts the block short. *)
Theorem props_block_is_found (before ws1 stem ws2 block rest : string) :
  Str.includes (before +:+ "interfac") "interface" = false →
  ws1 ≠ "" → Str.every Char.is_space ws1 = true →
  stem ≠ "" → word_only stem = true →
  Str.every Char.is_space ws2 = true →
  block ≠ "" → Str.every (Char.none_of ["}"%char]) block = true →
  parse_props
    (before +:+ "interface" +:+ ws1 +:+ stem +:+ "Props" +:+ ws2
       +:+ "{" +:+ block +:+ "}" +:+ rest)
  = fold_left add_prop (prop_lines block) Obj.empty.
Proof. apply parse_props_block. Qed.

Lemma props_block_is_found_witness :
  parse_props
    ("import React from 'react';" +:+ Str.newline +:+ "interface" +:+ " "
       +:+ "Card" +:+ "Props" +:+ " " +:+ "{" +:+ " style: { color: string "
       +:+ "}" +:+ "; }")
  = fold_left add_prop (prop_lines " style: { color: string ") Obj.empty.
Proof.
  apply (props_block_is_found ("import React from 'react';" +:+ Str.newline)
           " " "Card" " " " style: { color: string " "; }");
    try reflexivity; discriminate.
Defined.

Section LineForward.

Context {R : Type}.
Implicit Types (p : ascii → bool) (s : string) (c : Regex.captures)
  (k : string → Regex.captures → option R) (r : Regex.t).

Lemma opt_taken r s c k x :
  Regex.run r s c k = Some x → Regex.run (Regex.Opt r) s c k = Some x.
Proof. simpl. by intros ->. Qed.

Lemma opt_skipped r s c k :
  Regex.run r s c k = None → Regex.run (Regex.Opt r) s c k = k s c.
Proof. simpl. by intros ->. Qed.

Lemma stops_app p (s t : string) :
  s ≠ "" → stops p s = true → stops p (s +:+ t) = true.
Proof. destruct s; [done|]. by rewrite app_cons. Qed.

End LineForward.

(** What the reducer does with a declaration line. *)
Lemma add_prop_declaration (acc : Obj.t PropConfig)
    (n ws ty tail : string) (question : bool) :
  n ≠ "" → word_only n = true →
  Str.every Char.is_space ws = true →
  ty ≠ "" → Str.every (Char.none_of [";"%char]) ty = true →
  stops Char.is_space ty = true →
  stops (Char.none_of [";"%char]) tail = true →
  add_prop acc
    (n +:+ (if question then "?" else "") +:+ ":" +:+ ws +:+ ty +:+ tail)
  = Obj.set n {| type := Str.trim ty; optional := question |} acc.
Proof.
  intros Hn Hw Hws Hty Hns Hhead Htail.
  assert (∃ wh,
            Regex.exec prop_line_pattern
              (n +:+ (if question then "?" else "") +:+ ":" +:+ ws +:+ ty +:+ tail)
            = Some {| Regex.whole := wh;
                      Regex.groups :=
                        (3, ty) :: (if question then [(2, "?")] else []) ++ [(1, n)];
                      Regex.rest := tail |}) as [wh E].
  { change prop_line_pattern with
      (Regex.Seq (Regex.Group 1 (Regex.Plus Char.is_word))
         (Regex.Seq (Regex.Opt (Regex.Group 2 (Regex.Lit "?")))
            (Regex.Seq (Regex.Lit ":")
               (Regex.Seq (Regex.Star Char.is_space)
                  (Regex.Group 3 (Regex.Plus (Char.none_of [";"%char]))))))).
    destruct question; eexists; apply exec_first; unfold Regex.at_start;
      rewrite run_seq, run_group;
      (apply plus_take_all; [done|done|reflexivity|]); rewrite run_seq.
    - apply opt_taken. rewrite run_group, lit_fwd, run_seq, lit_fwd, run_seq.
      apply star_take_all; [done|by apply stops_app|].
      rewrite run_group. apply plus_take_all; [done..|].
      rewrite !take_app_length. reflexivity.
    - rewrite app_nil_l, opt_skipped by reflexivity.
      rewrite run_seq, lit_fwd, run_seq.
      apply star_take_all; [done|by apply stops_app|].
      rewrite run_group. apply plus_take_all; [done..|].
      rewrite !take_app_length. reflexivity. }
  unfold add_prop. rewrite E. by destruct question.
Qed.



(** ** Reading back a written interface *)

Section RoundTrip.

Implicit Types (d : string * PropConfig) (ds : list (string * PropConfig))
  (s : string).

Lemma trimStart_stops s : stops Char.is_space (Str.trimStart s) = true.
Proof.
  induction s as [|a s IH]; [done|]. simpl.
  destruct (Char.is_space a) eqn:E; [done|]. simpl. by rewrite E.
Qed.

Lemma trimEnd_stops s :
  stops Char.is_space s = true → stops Char.is_space (Str.trimEnd s) = true.
Proof.
  destruct s as [|a s]; [done|]. simpl. intros Ha.
  destruct (Str.trimEnd s); [|done].
  apply negb_true_iff in Ha. rewrite Ha. simpl. by rewrite Ha.
Qed.

Lemma trim_stops s : stops Char.is_space (Str.trim s) = true.
Proof. apply trimEnd_stops, trimStart_stops. Qed.

Lemma trimStart_id s : stops Char.is_space s = true → Str.trimStart s = s.
Proof.
  destruct s as [|a s]; [done|]. simpl. intros Ha%negb_true_iff. by rewrite Ha.
Qed.

Lemma trimEnd_last s a :
  Char.is_space a = false → Str.trimEnd (s +:+ String a "") = s +:+ String a "".
Proof.
  intros Ha. induction s as [|b s IH]; [simpl; by rewrite Ha|].
  rewrite app_cons. simpl. rewrite IH. by destruct s.
Qed.

Lemma every_weaken (l l' : list ascii) s :
  (∀ a, a ∈ l' → a ∈ l) →
  Str.every (Char.none_of l) s = true → Str.every (Char.none_of l') s = true.
Proof.
  intros Hsub. apply every_impl. intros a. unfold Char.none_of.
  rewrite !negb_true_iff. intros Hl. apply not_true_iff_false. intros Hl'.
  apply existsb_exists in Hl' as (x & Hx & Ex). apply not_true_iff_false in Hl.
  apply Hl, existsb_exists. exists x. split; [|done].
  by apply list_elem_of_In, Hsub, list_elem_of_In.
Qed.

Lemma word_none_of (l : list ascii) s :
  (∀ a, a ∈ l → Char.is_word a = false) →
  word_only s = true → Str.every (Char.none_of l) s = true.
Proof.
  intros Hl. apply every_impl. intros a Ha. unfold Char.none_of.
  apply negb_true_iff, not_true_iff_false. intros Hin.
  apply existsb_exists in Hin as (x & Hx & ->%ascii_eqb_true).
  apply list_elem_of_In, Hl in Hx. congruence.
Qed.

Lemma render_line_none_of (l : list ascii) d :
  (∀ a, a ∈ l → Char.is_word a = false) →
  Str.every (Char.none_of l) "  ?: ;" = true →
  word_only (fst d) = true → Str.every (Char.none_of l) (type (snd d)) = true →
  Str.every (Char.none_of l) (render_line d) = true.
Proof.
  intros Hl Hfixed Hn Hty. unfold render_line.
  rewrite !every_app, (word_none_of _ _ Hl Hn), Hty.
  simpl in Hfixed. repeat (apply andb_true_iff in Hfixed as [? Hfixed]).
  destruct (optional (snd d)); simpl; by repeat (apply andb_true_iff; split).
Qed.

Lemma none_of_other_than c s :
  Str.every (Char.none_of [c]) s = true → Str.every (Char.other_than c) s = true.
Proof.
  apply every_impl. intros a. unfold Char.none_of, Char.other_than. simpl.
  by rewrite orb_false_r.
Qed.

Lemma split_render_lines ds :
  Forall declarable ds →
  Str.split Char.newline (render_lines ds) = (render_line <$> ds) ++ [""].
Proof.
  induction 1 as [|d ds ((_ & Hw & _) & _ & _ & Hty) _ IH]; [done|].
  change (render_lines (d :: ds))
    with (render_line d +:+ String Char.newline (render_lines ds)).
  rewrite split_app_sep, IH, fmap_cons.
  rewrite split_no_sep; [done|]. apply none_of_other_than.
  apply render_line_none_of; [|done|done|].
  - intros a ->%list_elem_of_singleton. done.
  - revert Hty. apply every_weaken. intros a ->%list_elem_of_singleton.
    apply elem_of_cons. right. apply elem_of_cons. right. by apply elem_of_cons; left.
Qed.

Lemma trim_render_line d :
  declarable d →
  Str.trim (render_line d)
  = fst d +:+ (if optional (snd d) then "?" else "") +:+ ":" +:+ " "
      +:+ type (snd d) +:+ ";".
Proof.
  intros ((Hne & Hw & _) & _). unfold Str.trim, render_line.
  change ("  " +:+ ?x) with (String " " (String " " x)). cbn [Str.trimStart].
  change (Char.is_space " ") with true. cbv iota.
  rewrite trimStart_id by (by apply stops_space_word).
  rewrite <- !app_assoc. by rewrite (trimEnd_last _ ";").
Qed.

End RoundTrip.

Section ReadBack.

Implicit Types (d : string * PropConfig) (ds : list (string * PropConfig))
  (acc : Obj.t PropConfig).

Lemma render_lines_no_brace ds :
  Forall declarable ds →
  Str.every (Char.none_of ["}"%char]) (render_lines ds) = true.
Proof.
  induction 1 as [|d ds ((_ & Hw & _) & _ & _ & Hty) _ IH]; [done|].
  change (render_lines (d :: ds))
    with (render_line d +:+ Str.newline +:+ render_lines ds).
  rewrite (every_app _ (render_line d)), (every_app _ Str.newline), IH.
  apply andb_true_iff. split; [|reflexivity].
  apply render_line_none_of; [|done|done|].
  - intros a ->%list_elem_of_singleton. done.
  - revert Hty. apply every_weaken. intros a ->%list_elem_of_singleton.
    apply elem_of_cons. right. by apply elem_of_cons; left.
Qed.

Lemma prop_line_kept d :
  declarable d →
  Str.truthy (Str.trim (render_line d))
  && negb (Str.startsWith (Str.trim (render_line d)) "//") = true.
Proof.
  intros Hd. rewrite (trim_render_line _ Hd).
  destruct Hd as ((Hne & Hw & _) & _).
  destruct (fst d) as [|a n]; [done|]. rewrite app_cons. simpl in Hw.
  apply andb_true_iff in Hw as [Ha _]. unfold Str.startsWith.
  cbn [Str.truthy Str.strip andb].
  destruct (Ascii.eqb_spec "/" a) as [<-|_]; [discriminate Ha|done].
Qed.

Lemma prop_lines_rendered ds :
  Forall declarable ds →
  prop_lines (Str.newline +:+ render_lines ds)
  = (λ d, fst d +:+ (if optional (snd d) then "?" else "") +:+ ":" +:+ " "
            +:+ type (snd d) +:+ ";") <$> ds.
Proof.
  intros Hds. unfold prop_lines, Str.newline.
  rewrite sep_app. change (String Char.newline (render_lines ds))
    with ("" +:+ String Char.newline (render_lines ds)).
  rewrite split_app_sep, (split_render_lines _ Hds).
  change (Str.split Char.newline "") with [""]. simpl.
  induction Hds as [|d ds Hd _ IH]; [done|].
  rewrite !fmap_cons. cbn [app List.filter]. rewrite (prop_line_kept _ Hd).
  by rewrite fmap_cons, IH, (trim_render_line _ Hd).
Qed.

Lemma add_prop_rendered acc d :
  declarable d →
  add_prop acc
    (fst d +:+ (if optional (snd d) then "?" else "") +:+ ":" +:+ " "
       +:+ type (snd d) +:+ ";")
  = Obj.set (fst d) (snd d) acc.
Proof.
  intros ((Hne & Hw & _) & Hty & Htrim & Hev).
  rewrite (add_prop_declaration acc (fst d) " " (type (snd d)) ";"
             (optional (snd d))); try done.
  - rewrite Htrim. by destruct (snd d).
  - revert Hev. apply every_weaken. intros a ->%list_elem_of_singleton.
    by apply elem_of_cons; left.
  - rewrite <- Htrim. apply trim_stops.
Qed.

Lemma fold_add_prop_rendered ds acc :
  Forall declarable ds →
  fold_left add_prop
    ((λ d, fst d +:+ (if optional (snd d) then "?" else "") +:+ ":" +:+ " "
             +:+ type (snd d) +:+ ";") <$> ds) acc
  = fold_left (λ acc d, Obj.set (fst d) (snd d) acc) ds acc.
Proof.
  intros Hds. revert acc. induction Hds as [|d ds Hd _ IH]; intros acc; [done|].
  rewrite fmap_cons. simpl. by rewrite (add_prop_rendered _ _ Hd), IH.
Qed.

Lemma assign_fresh {V} k (v : V) (o : Obj.t V) :
  k ∉ fst <$> o → Obj.assign k v o = o ++ [(k, v)].
Proof.
  induction o as [|[k' v'] o IH]; [done|]. rewrite fmap_cons. simpl.
  intros [Hne Hin]%not_elem_of_cons.
  destruct (String.eqb_spec k' k) as [->|_]; [done|]. by rewrite IH.
Qed.

Lemma fold_set_distinct ds acc :
  Forall declarable ds → NoDup ((fst <$> acc) ++ (fst <$> ds)) →
  fold_left (λ acc d, Obj.set (fst d) (snd d) acc) ds acc = acc ++ ds.
Proof.
  intros Hds. revert acc. induction Hds as [|[n cfg] ds Hd _ IH]; intros acc Hnd.
  - by rewrite List.app_nil_r.
  - simpl. destruct Hd as ((_ & _ & Hproto) & _). simpl in Hproto.
    unfold Obj.set at 2. apply String.eqb_neq in Hproto. rewrite Hproto.
    rewrite fmap_cons in Hnd. simpl in Hnd.
    rewrite assign_fresh.
    + rewrite IH; [by rewrite <- List.app_assoc|].
      rewrite fmap_app. simpl. by rewrite <- List.app_assoc.
    + apply NoDup_app in Hnd as (_ & Hdisj & _). intros Hin.
      apply (Hdisj n Hin). apply elem_of_cons. by left.
Qed.

End ReadBack.

(** X19.  Reading back a written interface.  When the first [interface] of
    a file is a property interface written one declaration per line
    (name, optional question mark, colon, type, semicolon), the parser
    records the declarations in order, a later declaration of a name
    replacing the earlier one in place; with pairwise distinct names the
    properties parsed are exactly the declarations written. *)
Theorem written_interface_is_read_back (before stem rest : string)
    (ds : list (string * PropConfig)) :
  Str.includes (before +:+ "interfac") "interface" = false →
  stem ≠ "" → word_only stem = true →
  Forall declarable ds →
  parse_props (before +:+ render_interface stem ds +:+ rest)
  = fold_left (λ acc d, Obj.set (fst d) (snd d) acc) ds Obj.empty
  ∧ (NoDup (fst <$> ds) →
     parse_props (before +:+ render_interface stem ds +:+ rest) = ds).
Proof.
  intros Hbefore Hstem Hw Hds.
  assert (parse_props (before +:+ render_interface stem ds +:+ rest)
          = fold_left (λ acc d, Obj.set (fst d) (snd d) acc) ds Obj.empty) as E.
  { unfold render_interface.
    set (block := Str.newline +:+ render_lines ds).
    rewrite !app_assoc.
    rewrite (parse_props_block before " " stem " " block rest); try done.
    - unfold block. by rewrite (prop_lines_rendered _ Hds), fold_add_prop_rendered.
    - unfold block. rewrite every_app. by rewrite (render_lines_no_brace _ Hds). }
  split; [done|]. intros Hnd. rewrite E.
  by rewrite (fold_set_distinct ds Obj.empty Hds).
Qed.

Lemma written_interface_is_read_back_witness :
  let ds := [("title", {| type := "string"; optional := false |});
             ("onClick", {| type := "() => void"; optional := true |})] in
  parse_props ("" +:+ render_interface "Card" ds +:+ "")
  = fold_left (λ acc d, Obj.set (fst d) (snd d) acc) ds Obj.empty
  ∧ (NoDup (fst <$> ds) → parse_props ("" +:+ render_interface "Card" ds +:+ "") = ds).
Proof.
  apply (written_interface_is_read_back "" "Card" "");
    [reflexivity|discriminate|reflexivity|].
  repeat constructor; simpl; try discriminate; reflexivity.
Defined.

Lemma prop_lines_skip (above line below : string) :
  Str.every (Char.other_than Char.newline) line = true →
  Str.trim line = "" ∨ Str.startsWith (Str.trim line) "//" = true →
  prop_lines (above +:+ Str.newline +:+ line +:+ Str.newline +:+ below)
  = prop_lines (above +:+ Str.newline +:+ below).
Proof.
  intros Hline Hskip. unfold prop_lines, Str.newline.
  rewrite !sep_app, !split_app_sep, (split_no_sep _ _ Hline).
  rewrite !List.filter_app. do 2 f_equal. cbn [List.filter].
  destruct Hskip as [-> | ->]; [done|]. by rewrite andb_false_r.
Qed.

(** X20.  A line of the property block that is blank or whose trimmed text
    starts with [//] adds nothing: the properties read are those read
    without that line. *)
Theorem comment_lines_are_skipped
    (before ws1 stem ws2 above line below rest : string) :
  Str.includes (before +:+ "interfac") "interface" = false →
  ws1 ≠ "" → Str.every Char.is_space ws1 = true →
  stem ≠ "" → word_only stem = true →
  Str.every Char.is_space ws2 = true →
  Str.every (Char.none_of ["}"%char]) above = true →
  Str.every (Char.none_of ["}"%char]) line = true →
  Str.every (Char.none_of ["}"%char]) below = true →
  Str.every (Char.other_than Char.newline) line = true →
  Str.trim line = "" ∨ Str.startsWith (Str.trim line) "//" = true →
  parse_props
    (before +:+ "interface" +:+ ws1 +:+ stem +:+ "Props" +:+ ws2 +:+ "{"
       +:+ (above +:+ Str.newline +:+ line +:+ Str.newline +:+ below)
       +:+ "}" +:+ rest)
  = parse_props
      (before +:+ "interface" +:+ ws1 +:+ stem +:+ "Props" +:+ ws2 +:+ "{"
         +:+ (above +:+ Str.newline +:+ below) +:+ "}" +:+ rest).
Proof.
  intros Hbefore Hws1 Hs1 Hstem Hw Hs2 Ha Hl Hb Hline Hskip.
  rewrite !parse_props_block; try done;
    try (by rewrite !every_app, ?Ha, ?Hl, ?Hb);
    try (by destruct above).
  by rewrite prop_lines_skip.
Qed.

Lemma comment_lines_are_skipped_witness :
  parse_props
    ("" +:+ "interface" +:+ " " +:+ "Card" +:+ "Props" +:+ " " +:+ "{"
       +:+ ("" +:+ Str.newline +:+ "  // the title" +:+ Str.newline
              +:+ "  title: string;")
       +:+ "}" +:+ "")
  = parse_props
      ("" +:+ "interface" +:+ " " +:+ "Card" +:+ "Props" +:+ " " +:+ "{"
         +:+ ("" +:+ Str.newline +:+ "  title: string;") +:+ "}" +:+ "").
Proof.
  apply (comment_lines_are_skipped "" " " "Card" " " "" "  // the title"
           "  title: string;" ""); try reflexivity; try discriminate.
  right. reflexivity.
Defined.

(** X21.  While the cache is empty, every tool call with valid arguments
    and every resource read that consults it runs the load again: the
    state it leaves is the one the load produces from the file system of
    that moment. *)
Theorem empty_cache_is_reloaded (w : world) (this : ComponentMCPServer)
    (a : access) :
  componentsCache this = [] →
  match a with
  | CallGetComponents (Some c) => existsb (String.eqb c) categories = true
  | CallGetComponents None => False
  | CallGetComponentByName n => 2 ≤ String.length n ≤ 100
  | CallGetDesignTokens => False
  | ReadComponents _ | ReadComponent _ _ => True
  end →
  fst (serve w this a) = loadComponents w this.
Proof.
  intros Hempty Hvalid. pose proof (ensure_loaded_empty w this Hempty) as E.
  destruct a as [[c|]|n| |href|href n]; cbv beta iota in Hvalid; try done;
    unfold serve.
  - unfold tool_get_components. by rewrite Hvalid.
  - rewrite (tool_by_name_valid _ _ _ Hvalid). unfold prod_map. cbn [fst].
    by rewrite getComponentByName_state.
Qed.

Lemma empty_cache_is_reloaded_witness :
  fst (serve project_with_button new_server (ReadComponents "components://all"))
  = loadComponents project_with_button new_server.
Proof.
  apply (empty_cache_is_reloaded project_with_button new_server
           (ReadComponents "components://all")); [reflexivity|exact I].
Defined.
